(** * molecule: the protobuf decoding core, embedded and verified

    Shallow embedding of [src/codec/decode.go] (the byte cursor and its
    primitive decoders, the zig-zag codec, the group skipper) and of the
    field iterators of package [molecule] ([MessageEach],
    [PackedRepeatedEach], [readValueFromBuffer]).

    Conventions.
    - Go's [uint64], [int] (64 bit), [int32], [uint32] are [Z] with the
      wrap-around of every conversion and arithmetic operation written out
      ([uint64], [int64], [int32], [uint32] below).
    - [[]byte] is [list byte]; [cb.buf[i]] is [byteAt].
    - A method on [*Buffer] is a function from the buffer to its results
      paired with the buffer after the call.
    - Go's [(result, err)] returns are tuples whose last component is
      [option error] ([None] is [nil]).
    - Unbounded [for] loops take a fuel argument and return [None] when it
      runs out; the lemmas named [*_total] show which fuel is enough. *)

From Stdlib Require Import ZArith List Lia Bool.
From Stdlib Require Strings.String.
From Stdlib Require Import Strings.Byte.
Import ListNotations.
Local Open Scope Z_scope.

(** ** Machine integers *)

Definition uint64 (z : Z) : Z := z mod 2 ^ 64.
Definition uint32 (z : Z) : Z := z mod 2 ^ 32.
Definition int64 (z : Z) : Z := (z + 2 ^ 63) mod 2 ^ 64 - 2 ^ 63.
Definition int32 (z : Z) : Z := (z + 2 ^ 31) mod 2 ^ 32 - 2 ^ 31.

Definition MaxInt32 : Z := 2 ^ 31 - 1.
Definition MaxInt : Z := 2 ^ 63 - 1.

(** ** Errors

    One constructor per error value or [fmt.Errorf] site of the two
    packages; the arguments are the values formatted into the message. *)

(** Modelled from the spec: the logical field types, whose declaration is
    not among the sources. The constructors are the constants the switch of
    [PackedRepeatedEach] names; [FieldType_other] stands for every other
    value of the underlying integer type. *)
Inductive FieldType : Type :=
| FieldType_DOUBLE | FieldType_FLOAT
| FieldType_INT64 | FieldType_UINT64 | FieldType_INT32
| FieldType_FIXED64 | FieldType_FIXED32
| FieldType_BOOL | FieldType_STRING | FieldType_MESSAGE | FieldType_BYTES
| FieldType_UINT32 | FieldType_ENUM
| FieldType_SFIXED32 | FieldType_SFIXED64
| FieldType_SINT32 | FieldType_SINT64
| FieldType_other (n : Z).

Inductive error : Type :=
| io_EOF
| io_ErrUnexpectedEOF
| ErrOverflow
| ErrBadWireType
| ErrTagOutOfRange (v : Z)
| ErrBadByteLength (nb : Z)
| ErrDecodingVarint (e : error)
| ErrDecodingFixed32 (e : error)
| ErrDecodingFixed64 (e : error)
| ErrDecodingRawBytes (e : error)
| ErrGroupWireType (wireType : Z)
| ErrUnknownWireType (wireType : Z)
| ErrMessageEachRead (e : error)
| ErrPackedRepeatedEachRead (e : error)
| ErrUnknownFieldType (fieldType : FieldType)
| ErrCallback (msg : String.string).

Definition isNil (err : option error) : bool :=
  match err with None => true | Some _ => false end.

(** ** Package codec *)

Module codec.

(** Modelled from the spec: the wire-type constants, whose declaration is
    not among the sources. The spec gives Varint=0, Fixed64=1, Bytes=2,
    StartGroup=3, EndGroup=4, Fixed32=5. *)
Definition WireVarint : Z := 0.
Definition WireFixed64 : Z := 1.
Definition WireBytes : Z := 2.
Definition WireStartGroup : Z := 3.
Definition WireEndGroup : Z := 4.
Definition WireFixed32 : Z := 5.

(** Modelled from the spec: the cursor record, whose declaration is not
    among the sources; decode.go uses its fields [buf] and [index]. *)
Record Buffer : Type := mkBuffer { buf : list byte; index : Z }.

Definition NewBuffer (b : list byte) : Buffer := mkBuffer b 0.

Definition setIndex (cb : Buffer) (i : Z) : Buffer := mkBuffer (buf cb) i.

Definition len (b : list byte) : Z := Z.of_nat (length b).

(** [bs[i]]; every access in the code is guarded by a bounds test. *)
Definition byteAt (bs : list byte) (i : Z) : Z :=
  Z.of_N (Byte.to_N (nth (Z.to_nat i) bs x00)).

(** [bs[lo:hi]] and [bs[lo:]] *)
Definition slice (bs : list byte) (lo hi : Z) : list byte :=
  firstn (Z.to_nat (hi - lo)) (skipn (Z.to_nat lo) bs).
Definition sliceFrom (bs : list byte) (lo : Z) : list byte :=
  skipn (Z.to_nat lo) bs.

(** [make([]byte, n)] and [copy(dst, src)] (the result is the new [dst]) *)
Definition make (n : Z) : list byte := repeat x00 (Z.to_nat n).
Definition copy (dst src : list byte) : list byte :=
  let k := Nat.min (length dst) (length src) in
  firstn k src ++ skipn k dst.

(** Modelled from the spec: [EOF], not among the sources. "atEnd() is true
    iff position == length(sequence)". *)
Definition EOF (cb : Buffer) : bool := index cb =? len (buf cb).

(** Modelled from the spec: [Skip], not among the sources. "skip(n)
    advances position by exactly n bytes if in bounds; fails with
    UnexpectedEndOfInput otherwise". *)
Definition Skip (count : Z) (cb : Buffer) : option error * Buffer :=
  if (0 <=? count) && (index cb + count <=? len (buf cb))
  then (None, setIndex cb (index cb + count))
  else (Some io_ErrUnexpectedEOF, cb).

(** The [for shift := uint(0); shift < 64; shift += 7] loop of
    [DecodeVarint]. The guard is tested before each round; ten rounds
    reach [shift = 70], so the fuel [10] given by [DecodeVarint] is never
    used up (the branch for fuel [0] is not reached). *)
Fixpoint DecodeVarint_loop (fuel : nat) (cb : Buffer) (l shift i x : Z)
  : (Z * option error) * Buffer :=
  if shift <? 64 then
    if i >=? l then ((x, Some io_ErrUnexpectedEOF), cb)
    else
      let b := byteAt (buf cb) i in
      let i := i + 1 in
      let x := Z.lor x (uint64 (Z.shiftl (Z.land b 127) shift)) in
      if b <? 128 then ((x, None), setIndex cb i)
      else match fuel with
           | O => ((x, Some ErrOverflow), cb)
           | S fuel' => DecodeVarint_loop fuel' cb l (shift + 7) i x
           end
  else ((x, Some ErrOverflow), cb).

Definition DecodeVarint (cb : Buffer) : (Z * option error) * Buffer :=
  let i := index cb in
  let l := len (buf cb) in
  DecodeVarint_loop 10 cb l 0 i 0.

Definition DecodeTagAndWireType (cb : Buffer)
  : (Z * Z * option error) * Buffer :=
  let '((v, err), cb) := DecodeVarint cb in
  match err with
  | Some e => ((0, 0, Some e), cb)
  | None =>
      let wireType := Z.land v 7 in
      let v := Z.shiftr v 3 in
      if v >? MaxInt32 then ((0, wireType, Some (ErrTagOutOfRange v)), cb)
      else ((int32 v, wireType, None), cb)
  end.

Definition DecodeFixed64 (cb : Buffer) : (Z * option error) * Buffer :=
  let i := int64 (index cb + 8) in
  if (i <? 0) || (i >? len (buf cb)) then ((0, Some io_ErrUnexpectedEOF), cb)
  else
    let bs := buf cb in
    let x := byteAt bs (i - 8) in
    let x := Z.lor x (uint64 (Z.shiftl (byteAt bs (i - 7)) 8)) in
    let x := Z.lor x (uint64 (Z.shiftl (byteAt bs (i - 6)) 16)) in
    let x := Z.lor x (uint64 (Z.shiftl (byteAt bs (i - 5)) 24)) in
    let x := Z.lor x (uint64 (Z.shiftl (byteAt bs (i - 4)) 32)) in
    let x := Z.lor x (uint64 (Z.shiftl (byteAt bs (i - 3)) 40)) in
    let x := Z.lor x (uint64 (Z.shiftl (byteAt bs (i - 2)) 48)) in
    let x := Z.lor x (uint64 (Z.shiftl (byteAt bs (i - 1)) 56)) in
    ((x, None), setIndex cb i).

Definition DecodeFixed32 (cb : Buffer) : (Z * option error) * Buffer :=
  let i := int64 (index cb + 4) in
  if (i <? 0) || (i >? len (buf cb)) then ((0, Some io_ErrUnexpectedEOF), cb)
  else
    let bs := buf cb in
    let x := byteAt bs (i - 4) in
    let x := Z.lor x (uint64 (Z.shiftl (byteAt bs (i - 3)) 8)) in
    let x := Z.lor x (uint64 (Z.shiftl (byteAt bs (i - 2)) 16)) in
    let x := Z.lor x (uint64 (Z.shiftl (byteAt bs (i - 1)) 24)) in
    ((x, None), setIndex cb i).

(** [int32((uint32(v) >> 1) ^ uint32((int32(v&1)<<31)>>31))] *)
Definition DecodeZigZag32 (v : Z) : Z :=
  int32 (Z.lxor (Z.shiftr (uint32 v) 1)
                (uint32 (Z.shiftr (int32 (Z.shiftl (int32 (Z.land v 1)) 31)) 31))).

(** [int64((v >> 1) ^ uint64((int64(v&1)<<63)>>63))] *)
Definition DecodeZigZag64 (v : Z) : Z :=
  int64 (Z.lxor (Z.shiftr v 1)
                (uint64 (Z.shiftr (int64 (Z.shiftl (int64 (Z.land v 1)) 63)) 63))).

Definition DecodeRawBytes (alloc : bool) (cb : Buffer)
  : (list byte * option error) * Buffer :=
  let '((n, err), cb) := DecodeVarint cb in
  match err with
  | Some e => (([], Some e), cb)
  | None =>
      let nb := int64 n in
      if nb <? 0 then (([], Some (ErrBadByteLength nb)), cb)
      else
        let end_ := int64 (index cb + nb) in
        if (end_ <? index cb) || (end_ >? len (buf cb))
        then (([], Some io_ErrUnexpectedEOF), cb)
        else if negb alloc
        then ((slice (buf cb) (index cb) end_, None), setIndex cb end_)
        else
          let b := make nb in
          let b := copy b (sliceFrom (buf cb) (index cb)) in
          ((b, None), setIndex cb end_)
  end.

(** The inner [for] of the [WireVarint] case of [findGroupEnd]: finds the
    last byte of a varint. [limit] is [i + 10] at entry, so the fuel [10]
    given by the caller is never used up. The result is the error, or the
    index of the byte whose high bit is unset. *)
Fixpoint skipVarint_loop (fuel : nat) (bs : list byte) (limit i : Z)
  : error + Z :=
  if i >=? limit then inl ErrOverflow
  else if i >=? len bs then inl io_ErrUnexpectedEOF
  else if Z.land (byteAt bs i) 128 =? 0 then inr i
  else match fuel with
       | O => inl ErrOverflow
       | S fuel' => skipVarint_loop fuel' bs limit (i + 1)
       end.

(** [SkipGroup], given the group-end scan it calls. *)
Definition SkipGroup_with
  (findGroupEnd : Buffer -> option ((Z * Z * option error) * Buffer))
  (cb : Buffer) : option (option error * Buffer) :=
  match findGroupEnd cb with
  | None => None
  | Some ((groupEnd, _, err), cb) =>
      match err with
      | Some e => Some (Some e, cb)
      | None => Some (None, setIndex cb groupEnd)
      end
  end.

(** The [for { ... }] of [findGroupEnd], given the [SkipGroup] it calls
    on a nested group. One unit of fuel per field. *)
Fixpoint findGroupEnd_loop (fuel : nat)
  (SkipGroup : Buffer -> option (option error * Buffer))
  (bs : list byte) (cb : Buffer)
  : option ((Z * Z * option error) * Buffer) :=
  match fuel with
  | O => None
  | S fuel' =>
      let fieldStart := index cb in
      let '((_, wireType, err), cb) := DecodeTagAndWireType cb in
      match err with
      | Some e => Some ((0, 0, Some e), cb)
      | None =>
          if wireType =? WireFixed32 then
            match Skip 4 cb with
            | (Some e, cb) => Some ((0, 0, Some e), cb)
            | (None, cb) => findGroupEnd_loop fuel' SkipGroup bs cb
            end
          else if wireType =? WireFixed64 then
            match Skip 8 cb with
            | (Some e, cb) => Some ((0, 0, Some e), cb)
            | (None, cb) => findGroupEnd_loop fuel' SkipGroup bs cb
            end
          else if wireType =? WireVarint then
            let i := index cb in
            let limit := int64 (i + 10) in
            match skipVarint_loop 10 bs limit i with
            | inl e => Some ((0, 0, Some e), cb)
            | inr i =>
                findGroupEnd_loop fuel' SkipGroup bs (setIndex cb (int64 (i + 1)))
            end
          else if wireType =? WireBytes then
            let '((l, err), cb) := DecodeVarint cb in
            match err with
            | Some e => Some ((0, 0, Some e), cb)
            | None =>
                match Skip (int64 l) cb with
                | (Some e, cb) => Some ((0, 0, Some e), cb)
                | (None, cb) => findGroupEnd_loop fuel' SkipGroup bs cb
                end
            end
          else if wireType =? WireStartGroup then
            match SkipGroup cb with
            | None => None
            | Some (Some e, cb) => Some ((0, 0, Some e), cb)
            | Some (None, cb) => findGroupEnd_loop fuel' SkipGroup bs cb
            end
          else if wireType =? WireEndGroup then
            Some ((index cb, fieldStart, None), cb)
          else Some ((0, 0, Some ErrBadWireType), cb)
      end
  end.

(** [findGroupEnd]: the scan, then the deferred [cb.index = start]. The
    fuel bounds the nesting depth and, in each group, the number of
    fields. *)
Fixpoint findGroupEnd (fuel : nat) (cb : Buffer)
  : option ((Z * Z * option error) * Buffer) :=
  match fuel with
  | O => None
  | S fuel' =>
      let bs := buf cb in
      let start := index cb in
      match findGroupEnd_loop fuel' (SkipGroup_with (findGroupEnd fuel')) bs cb with
      | None => None
      | Some (r, cb) => Some (r, setIndex cb start)
      end
  end.

Definition SkipGroup (fuel : nat) (cb : Buffer)
  : option (option error * Buffer) :=
  SkipGroup_with (findGroupEnd fuel) cb.

Definition ReadGroup (fuel : nat) (alloc : bool) (cb : Buffer)
  : option ((list byte * option error) * Buffer) :=
  match findGroupEnd fuel cb with
  | None => None
  | Some ((groupEnd, dataEnd, err), cb) =>
      match err with
      | Some e => Some (([], Some e), cb)
      | None =>
          let results :=
            if negb alloc then slice (buf cb) (index cb) dataEnd
            else copy (make (dataEnd - index cb)) (sliceFrom (buf cb) (index cb)) in
          Some ((results, None), setIndex cb groupEnd)
      end
  end.

End codec.

(** ** Package molecule *)

Module molecule.
Import codec.

(** The reusable record of one decoded field. [Value{}] is [zeroValue]. *)
Record Value : Type := mkValue { WireType : Z; Number : Z; Bytes : list byte }.

Definition zeroValue : Value := mkValue 0 0 [].

(** [value] is passed by pointer and written in place: the record after
    the call is part of the result, also when the call fails. *)
Definition readValueFromBuffer (wireType : Z) (buffer : Buffer) (value : Value)
  : (Value * option error) * Buffer :=
  let value := mkValue wireType (Number value) (Bytes value) in
  if wireType =? WireVarint then
    let '((varint, err), buffer) := DecodeVarint buffer in
    match err with
    | Some e => ((value, Some (ErrDecodingVarint e)), buffer)
    | None => ((mkValue (WireType value) varint (Bytes value), None), buffer)
    end
  else if wireType =? WireFixed32 then
    let '((fixed32, err), buffer) := DecodeFixed32 buffer in
    match err with
    | Some e => ((value, Some (ErrDecodingFixed32 e)), buffer)
    | None => ((mkValue (WireType value) fixed32 (Bytes value), None), buffer)
    end
  else if wireType =? WireFixed64 then
    let '((fixed64, err), buffer) := DecodeFixed64 buffer in
    match err with
    | Some e => ((value, Some (ErrDecodingFixed64 e)), buffer)
    | None => ((mkValue (WireType value) fixed64 (Bytes value), None), buffer)
    end
  else if wireType =? WireBytes then
    let '((b, err), buffer) := DecodeRawBytes false buffer in
    match err with
    | Some e => ((value, Some (ErrDecodingRawBytes e)), buffer)
    | None => ((mkValue (WireType value) (Number value) b, None), buffer)
    end
  else if (wireType =? WireStartGroup) || (wireType =? WireEndGroup) then
    ((value, Some (ErrGroupWireType wireType)), buffer)
  else ((value, Some (ErrUnknownWireType wireType)), buffer).

(** [err == io.EOF] *)
Definition isEOF (err : option error) : bool :=
  match err with Some io_EOF => true | _ => false end.

(** The field-type switch at the head of [PackedRepeatedEach]; [None] is
    its [default] branch. *)
Definition packedWireType (fieldType : FieldType) : option Z :=
  match fieldType with
  | FieldType_INT32 | FieldType_INT64 | FieldType_UINT32 | FieldType_UINT64
  | FieldType_SINT32 | FieldType_SINT64 | FieldType_BOOL | FieldType_ENUM =>
      Some WireVarint
  | FieldType_FIXED64 | FieldType_SFIXED64 | FieldType_DOUBLE =>
      Some WireFixed64
  | FieldType_FIXED32 | FieldType_SFIXED32 | FieldType_FLOAT =>
      Some WireFixed32
  | FieldType_STRING | FieldType_MESSAGE | FieldType_BYTES =>
      Some WireBytes
  | FieldType_other _ => None
  end.

Section Iterators.

(** The state a callback closes over. A callback is a function of that
    state; it returns its Go results and the state after the call. *)
Variable St : Type.

Definition MessageEachFn : Type := St -> Z -> Value -> (bool * option error) * St.
Definition PackedRepeatedEachFn : Type := St -> Value -> (bool * option error) * St.

(** The [for !buffer.EOF()] loop of [MessageEach]; one unit of fuel per
    field. The result is the returned error, the buffer and the callback
    state. *)
Fixpoint MessageEach_loop (fuel : nat) (fn : MessageEachFn)
  (buffer : Buffer) (value : Value) (st : St)
  : option (option error * Buffer * St) :=
  if negb (EOF buffer) then
    match fuel with
    | O => None
    | S fuel' =>
        let '((fieldNum, wireType, err), buffer) := DecodeTagAndWireType buffer in
        if isEOF err then Some (None, buffer, st)
        else
          let '((value, err), buffer) := readValueFromBuffer wireType buffer value in
          match err with
          | Some e => Some (Some (ErrMessageEachRead e), buffer, st)
          | None =>
              let '((shouldContinue, err), st) := fn st fieldNum value in
              if negb (isNil err) || negb shouldContinue
              then Some (err, buffer, st)
              else MessageEach_loop fuel' fn buffer value st
          end
    end
  else Some (None, buffer, st).

Definition MessageEach (fuel : nat) (buffer : Buffer) (fn : MessageEachFn) (st : St)
  : option (option error * Buffer * St) :=
  let value := zeroValue in
  MessageEach_loop fuel fn buffer value st.

(** The [for !buffer.EOF()] loop of [PackedRepeatedEach]. *)
Fixpoint PackedRepeatedEach_loop (fuel : nat) (wireType : Z)
  (fn : PackedRepeatedEachFn) (buffer : Buffer) (value : Value) (st : St)
  : option (option error * Buffer * St) :=
  if negb (EOF buffer) then
    match fuel with
    | O => None
    | S fuel' =>
        let '((value, err), buffer) := readValueFromBuffer wireType buffer value in
        match err with
        | Some e => Some (Some (ErrPackedRepeatedEachRead e), buffer, st)
        | None =>
            let '((shouldContinue, err), st) := fn st value in
            if negb (isNil err) || negb shouldContinue
            then Some (None, buffer, st)
            else PackedRepeatedEach_loop fuel' wireType fn buffer value st
        end
    end
  else Some (None, buffer, st).

Definition PackedRepeatedEach (fuel : nat) (buffer : Buffer)
  (fieldType : FieldType) (fn : PackedRepeatedEachFn) (st : St)
  : option (option error * Buffer * St) :=
  match packedWireType fieldType with
  | None => Some (Some (ErrUnknownFieldType fieldType), buffer, st)
  | Some wireType =>
      let value := zeroValue in
      PackedRepeatedEach_loop fuel wireType fn buffer value st
  end.

End Iterators.

Arguments MessageEach_loop {St}.
Arguments MessageEach {St}.
Arguments PackedRepeatedEach_loop {St}.
Arguments PackedRepeatedEach {St}.

(** A callback instrumented to record what it reported: the state is
    paired with the log of the [(shouldContinue, err)] results of all
    invocations so far, oldest first. *)
Definition logged {St : Type} (fn : PackedRepeatedEachFn St)
  : PackedRepeatedEachFn (St * list (bool * option error)) :=
  fun st value =>
    let '(r, s) := fn (fst st) value in
    (r, (s, snd st ++ [r])).

(** A callback result that ends the iteration: an error, or "do not
    continue". *)
Definition stops (r : bool * option error) : bool :=
  negb (isNil (snd r)) || negb (fst r).

End molecule.

(** ** The wire format the claims refer to

    These definitions are not functions of the source: they state the
    format of the spec (section 6 and glossary) that the decoders are
    checked against. *)

Module wire.
Import codec.

Definition byte_of_Z (z : Z) : byte :=
  match Byte.of_N (Z.to_N z) with Some b => b | None => x00 end.

(** Canonical variable-length-integer encoding: 7-bit groups, least
    significant first, the high bit of a byte set iff another byte
    follows, no padding groups. Ten groups hold any 64-bit value. *)
Fixpoint varint_bytes (fuel : nat) (n : Z) : list byte :=
  match fuel with
  | O => []
  | S fuel' =>
      if n <? 128 then [byte_of_Z n]
      else byte_of_Z (n mod 128 + 128) :: varint_bytes fuel' (n / 128)
  end.

Definition EncodeVarint (n : Z) : list byte := varint_bytes 10 n.

(** A tag is the variable-length integer [(fieldNumber << 3) | wireType]. *)
Definition EncodeTagAndWireType (fieldNumber wireType : Z) : list byte :=
  EncodeVarint (Z.lor (Z.shiftl fieldNumber 3) wireType).

(** [zigzag(n) = (n << 1) XOR (n >> (width - 1))], the shift right being
    arithmetic, as an unsigned value of the width. *)
Definition zigzag32 (n : Z) : Z := uint32 (Z.lxor (Z.shiftl n 1) (Z.shiftr n 31)).
Definition zigzag64 (n : Z) : Z := uint64 (Z.lxor (Z.shiftl n 1) (Z.shiftr n 63)).

(** The cursor invariant [0 <= position <= length(sequence)]. *)
Definition inBounds (cb : Buffer) : Prop := 0 <= index cb <= len (buf cb).

(** What Go guarantees of any slice: its length is an [int]. *)
Definition goSlice (bs : list byte) : Prop := len bs <= MaxInt.

(** A byte with the continuation bit set. *)
Definition continues (b : byte) : bool := 128 <=? Z.of_N (Byte.to_N b).

(** The bytes of the buffer not yet read. *)
Definition remaining (cb : Buffer) : list byte := sliceFrom (buf cb) (index cb).

(** [valueEnds bs wireType p q]: a value of the wire type starts at offset
    [p] of [bs] and offset [q] is the first one after it. A varint value is
    at most ten bytes, all but the last with the continuation bit; a
    length-delimited value is its length prefix and that many bytes. *)
Inductive valueEnds (bs : list byte) : Z -> Z -> Z -> Prop :=
| ends_fixed32 p :
    p + 4 <= len bs -> valueEnds bs WireFixed32 p (p + 4)
| ends_fixed64 p :
    p + 8 <= len bs -> valueEnds bs WireFixed64 p (p + 8)
| ends_varint p q :
    p <= q < p + 10 -> q < len bs ->
    (forall j, p <= j < q -> 128 <= byteAt bs j) ->
    byteAt bs q < 128 ->
    valueEnds bs WireVarint p (q + 1)
| ends_bytes p q n :
    DecodeVarint (mkBuffer bs p) = ((n, None), mkBuffer bs q) ->
    n < 2 ^ 63 -> q + n <= len bs ->
    valueEnds bs WireBytes p (q + n).

(** [groupEnds bs p dataEnd groupEnd]: the fields that start at offset [p]
    (just after a StartGroup tag) run up to an EndGroup tag that occupies
    [dataEnd, groupEnd), every StartGroup tag met on the way being closed
    by an EndGroup tag of its own before: the tag at [dataEnd] is the
    matching one. *)
Inductive groupEnds (bs : list byte) : Z -> Z -> Z -> Prop :=
| group_end p g fieldNumber :
    DecodeTagAndWireType (mkBuffer bs p)
      = ((fieldNumber, WireEndGroup, None), mkBuffer bs g) ->
    groupEnds bs p p g
| group_field p p1 p2 d g fieldNumber wireType :
    DecodeTagAndWireType (mkBuffer bs p)
      = ((fieldNumber, wireType, None), mkBuffer bs p1) ->
    valueEnds bs wireType p1 p2 ->
    groupEnds bs p2 d g ->
    groupEnds bs p d g
| group_nested p p1 d1 g1 d g fieldNumber :
    DecodeTagAndWireType (mkBuffer bs p)
      = ((fieldNumber, WireStartGroup, None), mkBuffer bs p1) ->
    groupEnds bs p1 d1 g1 ->
    groupEnds bs g1 d g ->
    groupEnds bs p d g.

End wire.

(** ** Callbacks used in the examples *)

Module callbacks.
Import codec molecule.
Import Strings.String.

(** Appends every field it is given to its state and asks to go on. *)
Definition recordFields : MessageEachFn (list (Z * Value)) :=
  fun st fieldNum value => ((true, None), st ++ [(fieldNum, value)]).

Definition secondError : error := ErrCallback "second"%string.

(** Counts its invocations; the second one reports an error (and asks to
    go on), the others ask to go on. *)
Definition failSecond : PackedRepeatedEachFn nat :=
  fun st _ =>
    ((true, if Nat.eqb st 1 then Some secondError else None), S st).

End callbacks.

(** ** The tables of [init]

    [varintTypes], [fixed32Types] and [fixed64Types] are Go maps from
    [FieldType] to [bool], filled by [init]. A map is the list of its
    insertions, latest first; reading a missing key gives [false]. *)

Module tables.

Definition FieldType_eq_dec (a b : FieldType) : {a = b} + {a <> b}.
Proof. decide equality. apply Z.eq_dec. Defined.

Definition FieldTypeSet : Type := list (FieldType * bool).

(** [m[k] = v] *)
Definition mapSet (m : FieldTypeSet) (k : FieldType) (v : bool) : FieldTypeSet :=
  (k, v) :: m.

(** [m[k]] *)
Fixpoint mapGet (m : FieldTypeSet) (k : FieldType) : bool :=
  match m with
  | [] => false
  | (k', v) :: m' => if FieldType_eq_dec k k' then v else mapGet m' k
  end.

Definition varintTypes : FieldTypeSet :=
  let m := [] in
  let m := mapSet m FieldType_BOOL true in
  let m := mapSet m FieldType_INT32 true in
  let m := mapSet m FieldType_INT64 true in
  let m := mapSet m FieldType_UINT32 true in
  let m := mapSet m FieldType_UINT64 true in
  let m := mapSet m FieldType_SINT32 true in
  let m := mapSet m FieldType_SINT64 true in
  let m := mapSet m FieldType_ENUM true in
  m.

Definition fixed32Types : FieldTypeSet :=
  let m := [] in
  let m := mapSet m FieldType_FIXED32 true in
  let m := mapSet m FieldType_SFIXED32 true in
  let m := mapSet m FieldType_FLOAT true in
  m.

Definition fixed64Types : FieldTypeSet :=
  let m := [] in
  let m := mapSet m FieldType_FIXED64 true in
  let m := mapSet m FieldType_SFIXED64 true in
  let m := mapSet m FieldType_DOUBLE true in
  m.

End tables.

(** ** Encoded messages

    Not functions of the source: the wire format of fields and messages
    (spec, section 6), against which the decoders and iterators are
    checked. *)

Module message.
Import codec molecule wire.

(** The value of a run of varint bytes read as little-endian base-128
    digits, whatever their continuation bits. *)
Fixpoint varint_value (bs : list byte) : Z :=
  match bs with
  | [] => 0
  | b :: bs' => Z.of_N (Byte.to_N b) mod 128 + 128 * varint_value bs'
  end.

(** The [k] low bytes of [x], least significant first. *)
Fixpoint le_bytes (k : nat) (x : Z) : list byte :=
  match k with
  | O => []
  | S k' => byte_of_Z (x mod 256) :: le_bytes k' (x / 256)
  end.

Definition EncodeFixed32 (x : Z) : list byte := le_bytes 4 x.
Definition EncodeFixed64 (x : Z) : list byte := le_bytes 8 x.

(** A length-delimited byte run: the length as a varint, then the bytes. *)
Definition EncodeRawBytes (b : list byte) : list byte := EncodeVarint (len b) ++ b.

(** The payload of a field, by physical encoding. *)
Inductive Payload : Type :=
| PVarint (n : Z)
| PFixed32 (x : Z)
| PFixed64 (x : Z)
| PBytes (b : list byte).

Definition wireTypeOf (v : Payload) : Z :=
  match v with
  | PVarint _ => WireVarint
  | PFixed32 _ => WireFixed32
  | PFixed64 _ => WireFixed64
  | PBytes _ => WireBytes
  end.

Definition EncodePayload (v : Payload) : list byte :=
  match v with
  | PVarint n => EncodeVarint n
  | PFixed32 x => EncodeFixed32 x
  | PFixed64 x => EncodeFixed64 x
  | PBytes b => EncodeRawBytes b
  end.

(** The payload has a value of its encoding's width. *)
Definition payloadInRange (v : Payload) : Prop :=
  match v with
  | PVarint n => 0 <= n < 2 ^ 64
  | PFixed32 x => 0 <= x < 2 ^ 32
  | PFixed64 x => 0 <= x < 2 ^ 64
  | PBytes _ => True
  end.

Definition EncodeField (f : Z * Payload) : list byte :=
  EncodeTagAndWireType (fst f) (wireTypeOf (snd f)) ++ EncodePayload (snd f).

Definition fieldInRange (f : Z * Payload) : Prop :=
  0 <= fst f <= MaxInt32 /\ payloadInRange (snd f).

Definition EncodeMessage (fields : list (Z * Payload)) : list byte :=
  concat (map EncodeField fields).

Definition EncodePacked (vs : list Payload) : list byte :=
  concat (map EncodePayload vs).

(** The payload of a [Value] that its wire type selects; the other
    payload of the record is whatever an earlier field left there. *)
Definition payloadOf (value : Value) : Payload :=
  if WireType value =? WireBytes then PBytes (Bytes value)
  else if WireType value =? WireFixed32 then PFixed32 (Number value)
  else if WireType value =? WireFixed64 then PFixed64 (Number value)
  else PVarint (Number value).

(** A [MessageEach] callback that records its arguments and goes on. *)
Definition recordFields : MessageEachFn (list (Z * Value)) :=
  fun st fieldNum value => ((true, None), st ++ [(fieldNum, value)]).

(** A [PackedRepeatedEach] callback that records its argument and goes on. *)
Definition recordValues : PackedRepeatedEachFn (list Value) :=
  fun st value => ((true, None), st ++ [value]).

(** A [MessageEach] callback instrumented to record what it reported. *)
Definition loggedFields {St : Type} (fn : MessageEachFn St)
  : MessageEachFn (St * list (bool * option error)) :=
  fun st fieldNum value =>
    let '(r, s) := fn (fst st) fieldNum value in
    (r, (s, snd st ++ [r])).

(** The record after a payload has been decoded into it: the wire type
    and the payload it selects are written, the other payload stays. *)
Definition setPayload (value : Value) (v : Payload) : Value :=
  match v with
  | PVarint n => mkValue WireVarint n (Bytes value)
  | PFixed32 x => mkValue WireFixed32 x (Bytes value)
  | PFixed64 x => mkValue WireFixed64 x (Bytes value)
  | PBytes b => mkValue WireBytes (Number value) b
  end.

(** The arguments the callback of [MessageEach] is to receive for a list
    of fields, the record being [value] before the first one. *)
Fixpoint decodedFields (value : Value) (fields : list (Z * Payload))
  : list (Z * Value) :=
  match fields with
  | [] => []
  | (fieldNum, v) :: fields' =>
      let value := setPayload value v in
      (fieldNum, value) :: decodedFields value fields'
  end.

(** The same for the elements of a packed field. *)
Fixpoint decodedValues (value : Value) (vs : list Payload) : list Value :=
  match vs with
  | [] => []
  | v :: vs' =>
      let value := setPayload value v in
      value :: decodedValues value vs'
  end.

(** Handing the callback one argument after the other until it reports an
    error or "do not continue": the error it reported last, if it stopped,
    and its final state. *)
Fixpoint feedFields {St : Type} (fn : MessageEachFn St) (st : St)
  (args : list (Z * Value)) : option error * St :=
  match args with
  | [] => (None, st)
  | (fieldNum, value) :: args' =>
      let '((shouldContinue, err), st) := fn st fieldNum value in
      if negb (isNil err) || negb shouldContinue then (err, st)
      else feedFields fn st args'
  end.

Fixpoint feedValues {St : Type} (fn : PackedRepeatedEachFn St) (st : St)
  (args : list Value) : St :=
  match args with
  | [] => st
  | value :: args' =>
      let '((shouldContinue, err), st) := fn st value in
      if negb (isNil err) || negb shouldContinue then st
      else feedValues fn st args'
  end.

End message.

(** * Proofs *)

Import codec molecule wire.

(** ** Tactics *)

(** Case analysis on the integer comparisons of the goal. *)
Ltac zcases :=
  rewrite ?Z.geb_leb, ?Z.gtb_ltb;
  repeat match goal with
    | |- context [?a <? ?b] => destruct (Z.ltb_spec a b)
    | |- context [?a <=? ?b] => destruct (Z.leb_spec a b)
    | |- context [?a =? ?b] => destruct (Z.eqb_spec a b)
    end;
  cbn [orb andb negb].

Ltac int_unfold := unfold int64, int32, uint64, uint32, MaxInt, MaxInt32 in *.

(** ** Machine integers *)

Lemma int64_small z : - 2 ^ 63 <= z < 2 ^ 63 -> int64 z = z.
Proof. intros H. unfold int64. rewrite Z.mod_small; lia. Qed.

Lemma int64_range z : - 2 ^ 63 <= int64 z < 2 ^ 63.
Proof.
  unfold int64. pose proof (Z.mod_pos_bound (z + 2 ^ 63) (2 ^ 64)). lia.
Qed.

Lemma int64_high z : 2 ^ 63 <= z < 2 ^ 64 -> int64 z = z - 2 ^ 64.
Proof.
  intros H. unfold int64.
  replace (z + 2 ^ 63) with (z - 2 ^ 63 + 1 * 2 ^ 64) by lia.
  rewrite Z.mod_add by lia. rewrite Z.mod_small; lia.
Qed.

Lemma byteAt_range bs i : 0 <= byteAt bs i < 256.
Proof.
  unfold byteAt. pose proof (Byte.to_N_bounded (nth (Z.to_nat i) bs x00)). lia.
Qed.

(** ** DecodeVarint: frame *)

Lemma DecodeVarint_loop_frame fuel : forall cb shift i x,
  0 <= i ->
  let '((_, err), cb') := DecodeVarint_loop fuel cb (len (buf cb)) shift i x in
  buf cb' = buf cb /\
  match err with
  | Some _ => cb' = cb
  | None => i < index cb' <= len (buf cb)
  end.
Proof.
  induction fuel as [|fuel IH]; intros cb shift i x Hi; cbn [DecodeVarint_loop];
    zcases; cbn; try (split; [reflexivity | first [reflexivity | lia]]).
  specialize (IH cb (shift + 7) (i + 1) (Z.lor x (uint64 (Z.shiftl (Z.land (byteAt (buf cb) i) 127) shift)))).
  destruct (DecodeVarint_loop fuel cb (len (buf cb)) (shift + 7) (i + 1) _) as [[v err] cb'].
  destruct IH as [Hb He]; [lia|]. split; [exact Hb|]. destruct err; [exact He | lia].
Qed.

Lemma DecodeVarint_frame cb :
  0 <= index cb ->
  let '((_, err), cb') := DecodeVarint cb in
  buf cb' = buf cb /\
  match err with
  | Some _ => cb' = cb
  | None => index cb < index cb' <= len (buf cb)
  end.
Proof. intros H. unfold DecodeVarint. apply DecodeVarint_loop_frame, H. Qed.

Lemma DecodeVarint_loop_error fuel : forall cb l shift i x v e cb',
  DecodeVarint_loop fuel cb l shift i x = ((v, Some e), cb') -> cb' = cb.
Proof.
  induction fuel as [|fuel IH]; intros cb l shift i x v e cb';
    cbn [DecodeVarint_loop]; zcases; intros Hrun; try congruence.
  eapply IH, Hrun.
Qed.

Lemma DecodeVarint_error cb v e cb' :
  DecodeVarint cb = ((v, Some e), cb') -> cb' = cb.
Proof. apply DecodeVarint_loop_error. Qed.

(** ** Variable-length integers: decoding an encoding *)

Lemma byte_of_Z_value z : 0 <= z < 256 -> Z.of_N (Byte.to_N (byte_of_Z z)) = z.
Proof.
  intros Hz. unfold byte_of_Z.
  destruct (Byte.of_N (Z.to_N z)) as [b|] eqn:Hb.
  - apply Byte.to_of_N in Hb. rewrite Hb. lia.
  - apply Byte.of_N_None_iff in Hb. lia.
Qed.

Lemma skipn_cons_nth (bs : list byte) : forall (k : nat) b rest,
  skipn k bs = b :: rest ->
  nth k bs x00 = b /\ (k < length bs)%nat /\ skipn (S k) bs = rest.
Proof.
  induction bs as [|a bs IH]; intros k b rest H.
  - destruct k; discriminate.
  - destruct k as [|k].
    + cbn in H. injection H as -> ->. cbn. repeat split. lia.
    + cbn in H. destruct (IH k b rest H) as (Hn & Hl & Hs).
      cbn [nth length]. repeat split; [exact Hn | lia | exact Hs].
Qed.

Lemma remaining_cons cb b rest :
  0 <= index cb -> remaining cb = b :: rest ->
  byteAt (buf cb) (index cb) = Z.of_N (Byte.to_N b) /\
  index cb < len (buf cb) /\
  remaining (setIndex cb (index cb + 1)) = rest.
Proof.
  unfold remaining, sliceFrom, byteAt, len. intros Hi H.
  destruct (skipn_cons_nth _ _ _ _ H) as (Hn & Hl & Hs).
  rewrite Hn. repeat split; [lia|]. cbn [buf index setIndex].
  replace (Z.to_nat (index cb + 1)) with (S (Z.to_nat (index cb))) by lia.
  exact Hs.
Qed.

Lemma low7_high n : 0 <= n -> Z.lor (n mod 128) (Z.shiftl (n / 128) 7) = n.
Proof.
  intros Hn. change 128 with (2 ^ 7).
  rewrite <- Z.land_ones, <- Z.shiftr_div_pow2, <- Z.ldiff_ones_r by lia.
  rewrite Z.lor_comm. apply Z.lor_ldiff_and.
Qed.

Lemma continuation_low7 n : Z.land (n mod 128 + 128) 127 = n mod 128.
Proof.
  change 127 with (Z.ones 7). rewrite Z.land_ones by lia. change (2 ^ 7) with 128.
  replace (n mod 128 + 128) with (n mod 128 + 1 * 128) by lia.
  rewrite Z.mod_add by lia. apply Z.mod_mod. lia.
Qed.

Lemma small_low7 n : 0 <= n < 128 -> Z.land n 127 = n.
Proof.
  intros Hn. change 127 with (Z.ones 7). rewrite Z.land_ones by lia.
  apply Z.mod_small. exact Hn.
Qed.

Lemma shiftl_bound n shift : 0 <= shift < 64 -> 0 <= n < 2 ^ (64 - shift) ->
  0 <= Z.shiftl n shift < 2 ^ 64.
Proof.
  intros Hs Hn. rewrite Z.shiftl_mul_pow2 by lia.
  replace (2 ^ 64) with (2 ^ (64 - shift) * 2 ^ shift)
    by (rewrite <- Z.pow_add_r by lia; f_equal; lia).
  assert (0 < 2 ^ shift) by (apply Z.pow_pos_nonneg; lia). nia.
Qed.

(** The loop, started in round [10 - k] on the encoding of [n], returns the
    accumulator with [n] placed at the current shift. *)
Lemma DecodeVarint_loop_varint_bytes k : forall cb shift i x n rest,
  shift = 70 - 7 * Z.of_nat k -> 0 <= shift ->
  0 <= n < 2 ^ (64 - shift) ->
  0 <= i ->
  remaining (setIndex cb i) = varint_bytes k n ++ rest ->
  DecodeVarint_loop k cb (len (buf cb)) shift i x =
    ((Z.lor x (Z.shiftl n shift), None),
     setIndex cb (i + len (varint_bytes k n))).
Proof.
  induction k as [|k IH]; intros cb shift i x n rest Hs Hs0 Hn Hi Hrem.
  - exfalso. rewrite Z.pow_neg_r in Hn by lia. lia.
  - assert (Hshift : 0 <= shift < 64) by lia.
    cbn [DecodeVarint_loop varint_bytes] in *.
    destruct (Z.ltb_spec shift 64); [|lia].
    destruct (Z.ltb_spec n 128) as [Hsmall|Hbig].
    + cbn [app] in Hrem.
      destruct (remaining_cons (setIndex cb i) _ _ Hi Hrem) as (Hb & Hl & _).
      cbn [buf index setIndex] in Hb, Hl.
      rewrite Hb, byte_of_Z_value by lia.
      rewrite Z.geb_leb. destruct (Z.leb_spec (len (buf cb)) i); [lia|].
      destruct (Z.ltb_spec n 128); [|lia].
      rewrite small_low7 by lia.
      unfold uint64. rewrite Z.mod_small by (apply shiftl_bound; lia).
      reflexivity.
    + cbn [app] in Hrem.
      destruct (remaining_cons (setIndex cb i) _ _ Hi Hrem) as (Hb & Hl & Hrest).
      cbn [buf index setIndex] in Hb, Hl, Hrest.
      pose proof (Z.mod_pos_bound n 128 ltac:(lia)) as Hm.
      rewrite Hb, byte_of_Z_value by lia.
      rewrite Z.geb_leb. destruct (Z.leb_spec (len (buf cb)) i); [lia|].
      destruct (Z.ltb_spec (n mod 128 + 128) 128); [lia|].
      rewrite continuation_low7.
      assert (Hexp : 7 < 64 - shift).
      { destruct (Z.lt_ge_cases 7 (64 - shift)) as [Hlt|Hge]; [exact Hlt|].
        exfalso. assert (2 ^ (64 - shift) <= 2 ^ 7) by (apply Z.pow_le_mono_r; lia).
        change (2 ^ 7) with 128 in *. lia. }
      assert (Hdiv : 0 <= n / 128 < 2 ^ (64 - (shift + 7))).
      { split; [apply Z.div_pos; lia|].
        apply Z.div_lt_upper_bound; [lia|].
        replace (128 * 2 ^ (64 - (shift + 7))) with (2 ^ (64 - shift));
          [lia|].
        change 128 with (2 ^ 7). rewrite <- Z.pow_add_r by lia. f_equal. lia. }
      rewrite (IH cb (shift + 7) (i + 1) _ (n / 128) rest); try lia.
      * f_equal; [f_equal|].
        -- unfold uint64. rewrite Z.mod_small.
           2:{ apply shiftl_bound; [lia|]. split; [lia|].
               apply Z.lt_le_trans with (2 ^ 7); [change (2 ^ 7) with 128; lia|].
               apply Z.pow_le_mono_r; lia. }
           rewrite <- Z.lor_assoc. f_equal.
           replace (shift + 7) with (7 + shift) by lia.
           rewrite <- (Z.shiftl_shiftl (n / 128) 7 shift) by lia.
           rewrite <- Z.shiftl_lor. rewrite low7_high by lia. reflexivity.
        -- unfold len. cbn [length]. f_equal. lia.
      * exact Hrest.
Qed.

Lemma DecodeVarint_of_encoding n cb rest :
  0 <= n < 2 ^ 64 -> 0 <= index cb ->
  remaining cb = EncodeVarint n ++ rest ->
  DecodeVarint cb = ((n, None), setIndex cb (index cb + len (EncodeVarint n))).
Proof.
  intros Hn Hi Hrem. unfold DecodeVarint, EncodeVarint.
  rewrite (DecodeVarint_loop_varint_bytes 10 cb 0 (index cb) 0 n rest).
  - now rewrite Z.lor_0_l, Z.shiftl_0_r.
  - reflexivity.
  - lia.
  - exact Hn.
  - exact Hi.
  - destruct cb; exact Hrem.
Qed.

Example EncodeVarint_300 : EncodeVarint 300 = [xac; x02].
Proof. reflexivity. Qed.

Example EncodeVarint_max :
  EncodeVarint (2 ^ 64 - 1) = [xff; xff; xff; xff; xff; xff; xff; xff; xff; x01].
Proof. reflexivity. Qed.

(** ** DecodeVarint: the two failures *)

Lemma remaining_nil cb : 0 <= index cb -> remaining cb = [] -> len (buf cb) <= index cb.
Proof.
  unfold remaining, sliceFrom, len. intros Hi H.
  apply (f_equal (@length byte)) in H. rewrite length_skipn in H. cbn in H. lia.
Qed.

Lemma DecodeVarint_loop_overflow k : forall cb shift i x pre rest,
  shift = 70 - 7 * Z.of_nat k -> 0 <= i ->
  remaining (setIndex cb i) = pre ++ rest ->
  length pre = k -> forallb continues pre = true ->
  exists v, DecodeVarint_loop k cb (len (buf cb)) shift i x = ((v, Some ErrOverflow), cb).
Proof.
  induction k as [|k IH]; intros cb shift i x pre rest Hs Hi Hrem Hlen Hall.
  - subst shift. eexists. reflexivity.
  - destruct pre as [|b pre]; [discriminate|].
    cbn [DecodeVarint_loop]. destruct (Z.ltb_spec shift 64); [|lia].
    cbn [app] in Hrem.
    destruct (remaining_cons (setIndex cb i) _ _ Hi Hrem) as (Hb & Hl & Hrest).
    cbn [buf index setIndex] in Hb, Hl, Hrest.
    cbn [forallb] in Hall. apply andb_prop in Hall as [Hc Hall].
    unfold continues in Hc. apply Z.leb_le in Hc.
    rewrite Z.geb_leb. destruct (Z.leb_spec (len (buf cb)) i); [lia|].
    rewrite Hb. destruct (Z.ltb_spec (Z.of_N (Byte.to_N b)) 128); [lia|].
    eapply IH; eauto; try lia.
Qed.

Lemma DecodeVarint_loop_truncated k : forall cb shift i x,
  shift = 70 - 7 * Z.of_nat k -> 0 <= i ->
  (length (remaining (setIndex cb i)) < k)%nat ->
  forallb continues (remaining (setIndex cb i)) = true ->
  exists v,
    DecodeVarint_loop k cb (len (buf cb)) shift i x = ((v, Some io_ErrUnexpectedEOF), cb).
Proof.
  induction k as [|k IH]; intros cb shift i x Hs Hi Hlen Hall; [lia|].
  cbn [DecodeVarint_loop]. destruct (Z.ltb_spec shift 64); [|lia].
  destruct (remaining (setIndex cb i)) as [|b pre] eqn:Hrem.
  - apply remaining_nil in Hrem; [|exact Hi]. cbn [buf index setIndex] in Hrem.
    rewrite Z.geb_leb. destruct (Z.leb_spec (len (buf cb)) i); [|lia].
    eexists. reflexivity.
  - destruct (remaining_cons (setIndex cb i) _ _ Hi Hrem) as (Hb & Hl & Hrest).
    cbn [buf index setIndex] in Hb, Hl, Hrest.
    cbn [forallb] in Hall. apply andb_prop in Hall as [Hc Hall].
    unfold continues in Hc. apply Z.leb_le in Hc.
    rewrite Z.geb_leb. destruct (Z.leb_spec (len (buf cb)) i); [lia|].
    rewrite Hb. destruct (Z.ltb_spec (Z.of_N (Byte.to_N b)) 128); [lia|].
    assert (Hrest' : remaining (setIndex cb (i + 1)) = pre) by exact Hrest.
    apply IH; try lia.
    + rewrite Hrest'. cbn [length] in Hlen. lia.
    + rewrite Hrest'. exact Hall.
Qed.

(** ** Zig-zag *)

Lemma lxor_all_ones w a : 0 <= w -> 0 <= a < 2 ^ w ->
  Z.lxor a (2 ^ w - 1) = 2 ^ w - 1 - a.
Proof.
  intros Hw Ha.
  assert (Hb : Z.land (Z.lnot a) (Z.ones w) = 2 ^ w - 1 - a).
  { rewrite Z.land_ones by lia. unfold Z.lnot.
    replace (Z.pred (- a)) with (2 ^ w - 1 - a + (-1) * 2 ^ w) by lia.
    rewrite Z.mod_add by lia. apply Z.mod_small. lia. }
  assert (Hdisj : Z.land a (2 ^ w - 1 - a) = 0).
  { rewrite <- Hb, Z.land_assoc, Z.land_lnot_diag. apply Z.land_0_l. }
  apply Z.add_nocarry_lxor in Hdisj.
  replace (2 ^ w - 1) with (a + (2 ^ w - 1 - a)) at 1 by lia.
  rewrite Hdisj, <- Z.lxor_assoc, Z.lxor_nilpotent. apply Z.lxor_0_l.
Qed.

Lemma shiftr_sign w n : 0 < w -> - 2 ^ w <= n < 2 ^ w ->
  Z.shiftr n w = if n <? 0 then -1 else 0.
Proof.
  intros Hw Hn. rewrite Z.shiftr_div_pow2 by lia.
  destruct (Z.ltb_spec n 0).
  - symmetry. apply Z.div_unique with (n + 2 ^ w); lia.
  - apply Z.div_small. lia.
Qed.

Lemma land_1 z : Z.land z 1 = z mod 2.
Proof. change 1 with (Z.ones 1). rewrite Z.land_ones by lia. reflexivity. Qed.

Lemma zigzag_value w n : 0 < w -> - 2 ^ w <= n < 2 ^ w ->
  Z.lxor (Z.shiftl n 1) (Z.shiftr n w) = if n <? 0 then - 2 * n - 1 else 2 * n.
Proof.
  intros Hw Hn. rewrite shiftr_sign, Z.shiftl_mul_pow2 by lia.
  destruct (Z.ltb_spec n 0).
  - rewrite Z.lxor_m1_r. unfold Z.lnot. lia.
  - rewrite Z.lxor_0_r. lia.
Qed.

Lemma DecodeZigZag32_zigzag32 n : - 2 ^ 31 <= n < 2 ^ 31 -> DecodeZigZag32 (zigzag32 n) = n.
Proof.
  intros Hn. unfold zigzag32, DecodeZigZag32.
  rewrite zigzag_value by lia.
  destruct (Z.ltb_spec n 0).
  - assert (Hv : uint32 (- 2 * n - 1) = - 2 * n - 1)
      by (unfold uint32; apply Z.mod_small; lia).
    rewrite !Hv.
    replace (Z.land (- 2 * n - 1) 1) with 1.
    2:{ rewrite land_1. apply Z.mod_unique with (- n - 1); lia. }
    replace (Z.shiftr (- 2 * n - 1) 1) with (- n - 1).
    2:{ rewrite Z.shiftr_div_pow2 by lia. apply Z.div_unique with 1; lia. }
    change (uint32 (Z.shiftr (int32 (Z.shiftl (int32 1) 31)) 31)) with (2 ^ 32 - 1).
    rewrite lxor_all_ones by lia.
    unfold int32. replace (2 ^ 32 - 1 - (- n - 1) + 2 ^ 31)
      with (n + 2 ^ 31 + 1 * 2 ^ 32) by lia.
    rewrite Z.mod_add by lia. rewrite Z.mod_small; lia.
  - assert (Hv : uint32 (2 * n) = 2 * n)
      by (unfold uint32; apply Z.mod_small; lia).
    rewrite !Hv.
    replace (Z.land (2 * n) 1) with 0.
    2:{ rewrite land_1. apply Z.mod_unique with n; lia. }
    replace (Z.shiftr (2 * n) 1) with n.
    2:{ rewrite Z.shiftr_div_pow2 by lia. apply Z.div_unique with 0; lia. }
    change (uint32 (Z.shiftr (int32 (Z.shiftl (int32 0) 31)) 31)) with 0.
    rewrite Z.lxor_0_r. unfold int32. rewrite Z.mod_small; lia.
Qed.

Lemma DecodeZigZag64_zigzag64 n : - 2 ^ 63 <= n < 2 ^ 63 -> DecodeZigZag64 (zigzag64 n) = n.
Proof.
  intros Hn. unfold zigzag64, DecodeZigZag64.
  rewrite zigzag_value by lia.
  destruct (Z.ltb_spec n 0).
  - assert (Hv : uint64 (- 2 * n - 1) = - 2 * n - 1)
      by (unfold uint64; apply Z.mod_small; lia).
    rewrite !Hv.
    replace (Z.land (- 2 * n - 1) 1) with 1.
    2:{ rewrite land_1. apply Z.mod_unique with (- n - 1); lia. }
    replace (Z.shiftr (- 2 * n - 1) 1) with (- n - 1).
    2:{ rewrite Z.shiftr_div_pow2 by lia. apply Z.div_unique with 1; lia. }
    change (uint64 (Z.shiftr (int64 (Z.shiftl (int64 1) 63)) 63)) with (2 ^ 64 - 1).
    rewrite lxor_all_ones by lia.
    unfold int64. replace (2 ^ 64 - 1 - (- n - 1) + 2 ^ 63)
      with (n + 2 ^ 63 + 1 * 2 ^ 64) by lia.
    rewrite Z.mod_add by lia. rewrite Z.mod_small; lia.
  - assert (Hv : uint64 (2 * n) = 2 * n)
      by (unfold uint64; apply Z.mod_small; lia).
    rewrite !Hv.
    replace (Z.land (2 * n) 1) with 0.
    2:{ rewrite land_1. apply Z.mod_unique with n; lia. }
    replace (Z.shiftr (2 * n) 1) with n.
    2:{ rewrite Z.shiftr_div_pow2 by lia. apply Z.div_unique with 0; lia. }
    change (uint64 (Z.shiftr (int64 (Z.shiftl (int64 0) 63)) 63)) with 0.
    rewrite Z.lxor_0_r. unfold int64. rewrite Z.mod_small; lia.
Qed.

(** ** Tags *)

Lemma tag_value fieldNumber wireType : 0 <= fieldNumber -> 0 <= wireType < 8 ->
  Z.lor (Z.shiftl fieldNumber 3) wireType = 8 * fieldNumber + wireType.
Proof.
  intros Hf Hw.
  assert (Hlow : Z.land (Z.shiftl fieldNumber 3) (Z.ones 3) = 0).
  { rewrite Z.land_ones, Z.shiftl_mul_pow2 by lia. apply Z.mod_mul. lia. }
  assert (Hdisj : Z.land (Z.shiftl fieldNumber 3) wireType = 0).
  { rewrite <- (Z.mod_small wireType (2 ^ 3)) by (change (2 ^ 3) with 8; lia).
    rewrite <- Z.land_ones by lia.
    rewrite (Z.land_comm wireType), Z.land_assoc, Hlow. apply Z.land_0_l. }
  rewrite <- (Z.lxor_lor _ _ Hdisj), <- (Z.add_nocarry_lxor _ _ Hdisj).
  rewrite Z.shiftl_mul_pow2 by lia. change (2 ^ 3) with 8. lia.
Qed.

Lemma DecodeTagAndWireType_Encode_eq fieldNumber wireType cb rest :
  0 <= fieldNumber <= MaxInt32 -> 0 <= wireType < 8 ->
  0 <= index cb ->
  remaining cb = EncodeTagAndWireType fieldNumber wireType ++ rest ->
  DecodeTagAndWireType cb =
    ((fieldNumber, wireType, None),
     setIndex cb (index cb + len (EncodeTagAndWireType fieldNumber wireType))).
Proof.
  unfold EncodeTagAndWireType, MaxInt32. intros Hf Hw Hi Hrem.
  unfold DecodeTagAndWireType.
  rewrite tag_value in * by lia.
  rewrite (DecodeVarint_of_encoding (8 * fieldNumber + wireType) cb rest)
    by (try assumption; lia).
  change 7 with (Z.ones 3). rewrite Z.land_ones, Z.shiftr_div_pow2 by lia.
  change (2 ^ 3) with 8.
  replace ((8 * fieldNumber + wireType) / 8) with fieldNumber
    by (apply Z.div_unique with wireType; lia).
  replace ((8 * fieldNumber + wireType) mod 8) with wireType
    by (apply Z.mod_unique with fieldNumber; lia).
  rewrite Z.gtb_ltb. unfold MaxInt32.
  destruct (Z.ltb_spec (2 ^ 31 - 1) fieldNumber); [lia|].
  unfold int32. rewrite Z.mod_small by lia.
  repeat f_equal. lia.
Qed.

(** ** The value DecodeVarint returns is a uint64 *)

Lemma lor_uint64 a b : 0 <= a < 2 ^ 64 -> 0 <= b < 2 ^ 64 -> 0 <= Z.lor a b < 2 ^ 64.
Proof.
  intros Ha Hb.
  assert (H : Z.lor a b mod 2 ^ 64 = Z.lor a b).
  { rewrite <- !Z.land_ones, Z.land_lor_distr_l, !Z.land_ones by lia.
    rewrite !Z.mod_small by lia. reflexivity. }
  rewrite <- H. apply Z.mod_pos_bound. lia.
Qed.

Lemma DecodeVarint_loop_range fuel : forall cb l shift i x,
  0 <= x < 2 ^ 64 ->
  0 <= fst (fst (DecodeVarint_loop fuel cb l shift i x)) < 2 ^ 64.
Proof.
  induction fuel as [|fuel IH]; intros cb l shift i x Hx;
    cbn [DecodeVarint_loop]; zcases; cbn [fst]; try exact Hx;
    try (apply IH); apply lor_uint64; try exact Hx;
    unfold uint64; apply Z.mod_pos_bound; lia.
Qed.

Lemma DecodeVarint_range cb : 0 <= fst (fst (DecodeVarint cb)) < 2 ^ 64.
Proof. apply DecodeVarint_loop_range. lia. Qed.

(** ** Fixed-width decoders: frame *)

Lemma DecodeFixed64_frame cb :
  let '((_, err), cb') := DecodeFixed64 cb in
  buf cb' = buf cb /\
  match err with
  | Some _ => cb' = cb
  | None => inBounds cb' /\ index cb' = int64 (index cb + 8)
  end.
Proof.
  unfold DecodeFixed64, inBounds. zcases; cbn; repeat split; lia.
Qed.

Lemma DecodeFixed32_frame cb :
  let '((_, err), cb') := DecodeFixed32 cb in
  buf cb' = buf cb /\
  match err with
  | Some _ => cb' = cb
  | None => inBounds cb' /\ index cb' = int64 (index cb + 4)
  end.
Proof.
  unfold DecodeFixed32, inBounds. zcases; cbn; repeat split; lia.
Qed.

(** ** DecodeRawBytes *)

Lemma copy_make_slice bs lo n : 0 <= lo -> 0 <= n -> lo + n <= len bs ->
  copy (make n) (sliceFrom bs lo) = slice bs lo (lo + n).
Proof.
  unfold copy, make, sliceFrom, slice, len. intros Hlo Hn Hle. cbv zeta.
  rewrite repeat_length, length_skipn.
  replace (Nat.min (Z.to_nat n) (length bs - Z.to_nat lo)) with (Z.to_nat n) by lia.
  rewrite (skipn_all2 (repeat x00 (Z.to_nat n))) by (rewrite repeat_length; lia).
  rewrite app_nil_r. f_equal. lia.
Qed.

(** What [DecodeRawBytes] returns, by cases on the length prefix. *)
Lemma DecodeRawBytes_cases alloc cb n err cb1 :
  inBounds cb -> goSlice (buf cb) ->
  DecodeVarint cb = ((n, err), cb1) ->
  match err with
  | Some e => DecodeRawBytes alloc cb = (([], Some e), cb1)
  | None =>
      (2 ^ 63 <= n ->
       DecodeRawBytes alloc cb = (([], Some (ErrBadByteLength (n - 2 ^ 64))), cb1)) /\
      (n < 2 ^ 63 -> len (buf cb) < index cb1 + n ->
       DecodeRawBytes alloc cb = (([], Some io_ErrUnexpectedEOF), cb1)) /\
      (n < 2 ^ 63 -> index cb1 + n <= len (buf cb) ->
       DecodeRawBytes alloc cb =
         ((slice (buf cb) (index cb1) (index cb1 + n), None),
          setIndex cb1 (index cb1 + n)))
  end.
Proof.
  unfold inBounds, goSlice, MaxInt. intros Hin Hgo Hdec.
  unfold DecodeRawBytes.
  pose proof (DecodeVarint_frame cb (proj1 Hin)) as Hfr.
  pose proof (DecodeVarint_range cb) as Hrg.
  rewrite Hdec in *. cbn [fst] in Hrg.
  destruct Hfr as [Hbuf Hidx]. destruct err as [e|]; [reflexivity|].
  rewrite Hbuf. repeat split.
  - intros Hneg. rewrite int64_high by lia.
    destruct (Z.ltb_spec (n - 2 ^ 64) 0); [reflexivity | lia].
  - intros Hpos Hout. rewrite int64_small by lia.
    destruct (Z.ltb_spec n 0); [lia|].
    destruct (Z.lt_ge_cases (index cb1 + n) (2 ^ 63)).
    + rewrite int64_small by lia. zcases; try reflexivity; lia.
    + rewrite int64_high by lia. zcases; try reflexivity; lia.
  - intros Hpos Hok. rewrite !int64_small by lia.
    destruct (Z.ltb_spec n 0); [lia|]. zcases; try lia.
    destruct alloc; cbn [negb]; [|reflexivity].
    rewrite copy_make_slice by lia. reflexivity.
Qed.

(** ** Frames of the tag decoder and of Skip *)

(** Replace a buffer known to hold the bytes [bs] by [mkBuffer bs p]. *)
Ltac norm_buf cb p :=
  let b := fresh "b" in
  destruct cb as [b p]; cbn [buf index setIndex] in *; subst b.

Lemma DecodeTagAndWireType_frame cb :
  0 <= index cb ->
  let '((_, _, err), cb') := DecodeTagAndWireType cb in
  buf cb' = buf cb /\
  index cb <= index cb' /\
  (index cb <= len (buf cb) -> index cb' <= len (buf cb)) /\
  (err = None -> index cb < index cb' <= len (buf cb)).
Proof.
  intros Hi. unfold DecodeTagAndWireType.
  pose proof (DecodeVarint_frame cb Hi) as Hfr.
  destruct (DecodeVarint cb) as [[v e] cb1]. destruct Hfr as [Hb He].
  destruct e as [e|].
  - subst cb1. repeat split; try reflexivity; try lia; discriminate.
  - rewrite Z.gtb_ltb. destruct (Z.ltb_spec MaxInt32 (Z.shiftr v 3));
      repeat split; try assumption; try lia; discriminate.
Qed.

Lemma Skip_frame count cb :
  let '(err, cb') := Skip count cb in
  buf cb' = buf cb /\
  match err with
  | Some _ => cb' = cb
  | None => 0 <= count /\ index cb' = index cb + count /\ index cb' <= len (buf cb)
  end.
Proof. unfold Skip. zcases; cbn; repeat split; lia. Qed.

Lemma high_bit_clear (b : byte) :
  (Z.land (Z.of_N (Byte.to_N b)) 128 =? 0) = (Z.of_N (Byte.to_N b) <? 128).
Proof. destruct b; reflexivity. Qed.

Lemma skipVarint_loop_inr fuel : forall bs limit i j,
  skipVarint_loop fuel bs limit i = inr j ->
  i <= j < limit /\ j < len bs /\
  (forall k, i <= k < j -> 128 <= byteAt bs k) /\ byteAt bs j < 128.
Proof.
  induction fuel as [|fuel IH]; intros bs limit i j; cbn [skipVarint_loop];
    rewrite !Z.geb_leb; unfold byteAt at 1; rewrite high_bit_clear;
    fold (byteAt bs i);
    destruct (Z.leb_spec limit i); try discriminate;
    destruct (Z.leb_spec (len bs) i); try discriminate;
    destruct (Z.ltb_spec (byteAt bs i) 128); try discriminate; intros Hrun.
  - injection Hrun as <-. repeat split; lia.
  - injection Hrun as <-. repeat split; lia.
  - apply IH in Hrun as (Hj & Hl & Hall & Hlast).
    repeat split; try lia. intros k Hk.
    destruct (Z.eq_dec k i) as [->|]; [lia | apply Hall; lia].
Qed.

(** ** The group grammar stays inside the buffer *)

Lemma tag_at_bounds bs p fieldNumber wireType q :
  0 <= p ->
  DecodeTagAndWireType (mkBuffer bs p) = ((fieldNumber, wireType, None), mkBuffer bs q) ->
  p < q <= len bs.
Proof.
  intros Hp Hd. pose proof (DecodeTagAndWireType_frame (mkBuffer bs p) Hp) as Hfr.
  rewrite Hd in Hfr. cbn [buf index] in Hfr. apply Hfr. reflexivity.
Qed.

Lemma valueEnds_bounds bs wireType p q :
  0 <= p -> valueEnds bs wireType p q -> p <= q <= len bs.
Proof.
  intros Hp Hv. destruct Hv as [p Hle|p Hle|p q Hq Hl _ _|p q n Hd Hn Hle]; try lia.
  pose proof (DecodeVarint_frame (mkBuffer bs p) Hp) as Hfr.
  pose proof (DecodeVarint_range (mkBuffer bs p)) as Hrg.
  rewrite Hd in Hfr, Hrg. cbn [buf index fst] in Hfr, Hrg. lia.
Qed.

Lemma groupEnds_bounds bs p d g :
  groupEnds bs p d g -> 0 <= p -> p <= d /\ d < g <= len bs.
Proof.
  induction 1 as [p g fn Hd|p p1 p2 d g fn wt Hd Hv _ IH|p p1 d1 g1 d g fn Hd _ IH1 _ IH2];
    intros Hp; pose proof (tag_at_bounds _ _ _ _ _ Hp Hd) as Ht.
  - lia.
  - assert (Hp1 : 0 <= p1) by lia.
    pose proof (valueEnds_bounds bs wt p1 p2 Hp1 Hv) as Hb.
    specialize (IH ltac:(lia)). lia.
  - specialize (IH1 ltac:(lia)). specialize (IH2 ltac:(lia)). lia.
Qed.

(** The tag at [dataEnd] is an EndGroup tag, and it ends at [groupEnd]. *)
Lemma groupEnds_end_tag bs p d g :
  groupEnds bs p d g ->
  exists fieldNumber,
    DecodeTagAndWireType (mkBuffer bs d) = ((fieldNumber, WireEndGroup, None), mkBuffer bs g).
Proof. induction 1; eauto. Qed.

(** ** The group-end scan follows the grammar *)

Section GroupScan.

Variable bs : list byte.
Hypothesis Hgo : goSlice bs.

(** The scan is verified against any [SkipGroup] that is itself sound;
    [findGroupEnd] then ties the knot by induction on its fuel. *)
Variable SkipGroup : Buffer -> option (option error * Buffer).
Hypothesis SkipGroup_sound : forall cb r cb',
  buf cb = bs -> inBounds cb -> SkipGroup cb = Some (r, cb') ->
  buf cb' = bs /\ inBounds cb' /\
  (r = None -> exists d, groupEnds bs (index cb) d (index cb')).

Lemma findGroupEnd_loop_sound fuel : forall cb g d err cb',
  buf cb = bs -> inBounds cb ->
  findGroupEnd_loop fuel SkipGroup bs cb = Some ((g, d, err), cb') ->
  buf cb' = bs /\ inBounds cb' /\
  (err = None -> g = index cb' /\ groupEnds bs (index cb) d g).
Proof.
  unfold goSlice, MaxInt in Hgo.
  induction fuel as [|fuel IH]; intros cb g d err cb' Hbuf Hin Hrun; [discriminate|].
  cbn [findGroupEnd_loop] in Hrun. unfold inBounds in *.
  pose proof (DecodeTagAndWireType_frame cb (proj1 Hin)) as Hfr.
  destruct (DecodeTagAndWireType cb) as [[[fn wt] e] cb1] eqn:Htag.
  destruct Hfr as (Hb1 & Hle1 & Hin1 & Hok1).
  norm_buf cb p. norm_buf cb1 p1.
  specialize (Hin1 ltac:(lia)).
  destruct e as [e|].
  { injection Hrun as <- <- <- <-. cbn. repeat split; try lia; discriminate. }
  specialize (Hok1 eq_refl).
  destruct (Z.eqb_spec wt WireFixed32) as [->|_].
  { pose proof (Skip_frame 4 (mkBuffer bs p1)) as Hs.
    destruct (Skip 4 (mkBuffer bs p1)) as [[e|] cb2]; destruct Hs as [Hb2 Hs].
    - injection Hrun as <- <- <- <-. subst cb2. cbn. repeat split; try lia; discriminate.
    - norm_buf cb2 p2. destruct Hs as (_ & -> & Hle).
      apply IH in Hrun as (Hb & Hi & Hg); [|reflexivity|cbn; lia].
      repeat split; try assumption; try apply Hi; try (apply Hg; assumption).
      cbn [index] in *. eapply group_field; [exact Htag| |apply Hg; assumption].
      apply ends_fixed32. lia. }
  destruct (Z.eqb_spec wt WireFixed64) as [->|_].
  { pose proof (Skip_frame 8 (mkBuffer bs p1)) as Hs.
    destruct (Skip 8 (mkBuffer bs p1)) as [[e|] cb2]; destruct Hs as [Hb2 Hs].
    - injection Hrun as <- <- <- <-. subst cb2. cbn. repeat split; try lia; discriminate.
    - norm_buf cb2 p2. destruct Hs as (_ & -> & Hle).
      apply IH in Hrun as (Hb & Hi & Hg); [|reflexivity|cbn; lia].
      repeat split; try assumption; try apply Hi; try (apply Hg; assumption).
      cbn [index] in *. eapply group_field; [exact Htag| |apply Hg; assumption].
      apply ends_fixed64. lia. }
  destruct (Z.eqb_spec wt WireVarint) as [->|_].
  { destruct (skipVarint_loop 10 bs (int64 (p1 + 10)) p1) as [e|j] eqn:Hscan.
    - injection Hrun as <- <- <- <-. cbn. repeat split; try lia; discriminate.
    - apply skipVarint_loop_inr in Hscan as (Hj & Hl & Hall & Hlast).
      assert (Hlim : j < p1 + 10).
      { destruct (Z.lt_ge_cases (p1 + 10) (2 ^ 63)).
        - rewrite int64_small in Hj by lia. lia.
        - rewrite int64_high in Hj by lia. lia. }
      rewrite int64_small in Hrun by lia.
      apply IH in Hrun as (Hb & Hi & Hg); [|reflexivity|cbn; lia].
      repeat split; try assumption; try apply Hi; try (apply Hg; assumption).
      cbn [index] in *. eapply group_field; [exact Htag| |apply Hg; assumption].
      apply ends_varint; try assumption; lia. }
  destruct (Z.eqb_spec wt WireBytes) as [->|_].
  { pose proof (DecodeVarint_frame (mkBuffer bs p1) ltac:(cbn; lia)) as Hfr.
    pose proof (DecodeVarint_range (mkBuffer bs p1)) as Hrg.
    destruct (DecodeVarint (mkBuffer bs p1)) as [[l e] cb2] eqn:Hdec.
    destruct Hfr as [Hb2 Hfr]. cbn [fst] in Hrg. norm_buf cb2 q.
    destruct e as [e|].
    { injection Hfr as <-. injection Hrun as <- <- <- <-. cbn.
      repeat split; try lia; discriminate. }
    pose proof (Skip_frame (int64 l) (mkBuffer bs q)) as Hs.
    destruct (Skip (int64 l) (mkBuffer bs q)) as [[e|] cb3]; destruct Hs as [Hb3 Hs].
    - injection Hrun as <- <- <- <-. subst cb3. cbn. repeat split; try lia; discriminate.
    - norm_buf cb3 p3. destruct Hs as (Hnn & -> & Hle).
      assert (Hl : l < 2 ^ 63).
      { destruct (Z.lt_ge_cases l (2 ^ 63)) as [Hlt|Hge]; [exact Hlt|].
        rewrite int64_high in Hnn by lia. lia. }
      rewrite int64_small in * by lia.
      apply IH in Hrun as (Hb & Hi & Hg); [|reflexivity|cbn; lia].
      repeat split; try assumption; try apply Hi; try (apply Hg; assumption).
      cbn [index] in *. eapply group_field; [exact Htag| |apply Hg; assumption].
      eapply ends_bytes; eauto. }
  destruct (Z.eqb_spec wt WireStartGroup) as [->|_].
  { destruct (SkipGroup (mkBuffer bs p1)) as [[r cb2]|] eqn:Hsk; [|discriminate].
    apply SkipGroup_sound in Hsk as (Hb2 & Hin2 & Hnest);
      [|reflexivity|unfold inBounds; cbn; lia].
    norm_buf cb2 g1. unfold inBounds in Hin2. cbn in Hin2.
    destruct r as [e|].
    - injection Hrun as <- <- <- <-. cbn. repeat split; try lia; discriminate.
    - destruct (Hnest eq_refl) as [d1 Hd1].
      apply IH in Hrun as (Hb & Hi & Hg); [|reflexivity|cbn; lia].
      repeat split; try assumption; try apply Hi; try (apply Hg; assumption).
      cbn [index] in *. eapply group_nested; [exact Htag|exact Hd1|apply Hg; assumption]. }
  destruct (Z.eqb_spec wt WireEndGroup) as [->|_].
  { injection Hrun as <- <- <- <-. cbn. repeat split; try lia.
    eapply group_end. exact Htag. }
  injection Hrun as <- <- <- <-. cbn. repeat split; try lia; discriminate.
Qed.

End GroupScan.

Lemma setIndex_same cb cb' : buf cb' = buf cb -> setIndex cb' (index cb) = cb.
Proof. destruct cb, cb'. cbn. intros ->. reflexivity. Qed.

Lemma SkipGroup_with_sound
  (scan : Buffer -> option ((Z * Z * option error) * Buffer)) bs :
  (forall cb g d err cb', buf cb = bs -> inBounds cb ->
     scan cb = Some ((g, d, err), cb') ->
     cb' = cb /\ (err = None -> groupEnds bs (index cb) d g)) ->
  forall cb r cb',
    buf cb = bs -> inBounds cb -> SkipGroup_with scan cb = Some (r, cb') ->
    buf cb' = bs /\ inBounds cb' /\
    (r = None -> exists d, groupEnds bs (index cb) d (index cb')).
Proof.
  intros Hscan cb r cb' Hbuf Hin. unfold SkipGroup_with.
  destruct (scan cb) as [[[[g d] err] cb1]|] eqn:Hrun; [|discriminate].
  destruct (Hscan _ _ _ _ _ Hbuf Hin Hrun) as [-> Hg].
  destruct err as [e|]; intros H'; injection H' as <- <-.
  - repeat split; try assumption; try apply Hin. discriminate.
  - specialize (Hg eq_refl).
    pose proof (groupEnds_bounds _ _ _ _ Hg (proj1 Hin)) as Hbd.
    unfold inBounds in *. cbn [buf index setIndex]. rewrite Hbuf.
    repeat split; try lia. exists d. exact Hg.
Qed.

Lemma findGroupEnd_sound fuel : forall cb g d err cb',
  inBounds cb -> goSlice (buf cb) ->
  findGroupEnd fuel cb = Some ((g, d, err), cb') ->
  cb' = cb /\ (err = None -> groupEnds (buf cb) (index cb) d g).
Proof.
  induction fuel as [|fuel IH]; intros cb g d err cb' Hin Hgo Hrun; [discriminate|].
  cbn [findGroupEnd] in Hrun.
  destruct (findGroupEnd_loop fuel _ (buf cb) cb) as [[[[g1 d1] err1] cb1]|] eqn:Hloop;
    [|discriminate].
  injection Hrun as <- <- <- <-.
  apply (findGroupEnd_loop_sound (buf cb) Hgo) in Hloop as (Hb & Hi & Hg);
    [ | | reflexivity | exact Hin].
  - split; [apply setIndex_same; exact Hb|]. intros He. apply Hg, He.
  - apply SkipGroup_with_sound. intros cb2 g2 d2 err2 cb2' Hb2 Hin2 Hrun2.
    rewrite <- Hb2 in *. eapply IH; eassumption.
Qed.

(** ** The group-end scan returns *)

Section GroupScanTotal.

Variable bs : list byte.
Hypothesis Hgo : goSlice bs.
Variable SkipGroup : Buffer -> option (option error * Buffer).
Variable p0 : Z.
Hypothesis SkipGroup_total : forall cb,
  buf cb = bs -> inBounds cb -> p0 < index cb ->
  exists r cb', SkipGroup cb = Some (r, cb') /\
    buf cb' = bs /\ inBounds cb' /\ (r = None -> index cb <= index cb').

Lemma findGroupEnd_loop_total fuel : forall cb,
  buf cb = bs -> inBounds cb -> p0 <= index cb ->
  len bs - index cb < Z.of_nat fuel ->
  exists r, findGroupEnd_loop fuel SkipGroup bs cb = Some r.
Proof.
  unfold goSlice, MaxInt in Hgo.
  induction fuel as [|fuel IH]; intros cb Hbuf Hin Hp0 Hfuel.
  { unfold inBounds in Hin. rewrite Hbuf in Hin. lia. }
  cbn [findGroupEnd_loop]. unfold inBounds in *.
  pose proof (DecodeTagAndWireType_frame cb (proj1 Hin)) as Hfr.
  destruct (DecodeTagAndWireType cb) as [[[fn wt] e] cb1] eqn:Htag.
  destruct Hfr as (Hb1 & Hle1 & Hin1 & Hok1).
  norm_buf cb p. norm_buf cb1 p1.
  specialize (Hin1 ltac:(lia)).
  destruct e as [e|]; [eexists; reflexivity|].
  specialize (Hok1 eq_refl).
  destruct (Z.eqb_spec wt WireFixed32) as [->|_].
  { pose proof (Skip_frame 4 (mkBuffer bs p1)) as Hs.
    destruct (Skip 4 (mkBuffer bs p1)) as [[e|] cb2]; destruct Hs as [Hb2 Hs];
      [eexists; reflexivity|].
    norm_buf cb2 p2. apply IH; cbn; try reflexivity; lia. }
  destruct (Z.eqb_spec wt WireFixed64) as [->|_].
  { pose proof (Skip_frame 8 (mkBuffer bs p1)) as Hs.
    destruct (Skip 8 (mkBuffer bs p1)) as [[e|] cb2]; destruct Hs as [Hb2 Hs];
      [eexists; reflexivity|].
    norm_buf cb2 p2. apply IH; cbn; try reflexivity; lia. }
  destruct (Z.eqb_spec wt WireVarint) as [->|_].
  { destruct (skipVarint_loop 10 bs (int64 (p1 + 10)) p1) as [e|j] eqn:Hscan;
      [eexists; reflexivity|].
    apply skipVarint_loop_inr in Hscan as (Hj & Hl & _).
    rewrite int64_small by lia. apply IH; cbn; try reflexivity; lia. }
  destruct (Z.eqb_spec wt WireBytes) as [->|_].
  { pose proof (DecodeVarint_frame (mkBuffer bs p1) ltac:(cbn; lia)) as Hfr.
    destruct (DecodeVarint (mkBuffer bs p1)) as [[l e] cb2].
    destruct Hfr as [Hb2 Hfr]. norm_buf cb2 q.
    destruct e as [e|]; [eexists; reflexivity|].
    pose proof (Skip_frame (int64 l) (mkBuffer bs q)) as Hs.
    destruct (Skip (int64 l) (mkBuffer bs q)) as [[e|] cb3]; destruct Hs as [Hb3 Hs];
      [eexists; reflexivity|].
    norm_buf cb3 p3. apply IH; cbn; try reflexivity; lia. }
  destruct (Z.eqb_spec wt WireStartGroup) as [->|_].
  { destruct (SkipGroup_total (mkBuffer bs p1)) as (r & cb2 & -> & Hb2 & Hin2 & Hmono);
      [reflexivity | unfold inBounds; cbn; lia | cbn; lia |].
    destruct r as [e|]; [eexists; reflexivity|].
    specialize (Hmono eq_refl). norm_buf cb2 g1. unfold inBounds in Hin2.
    cbn in Hin2. apply IH; cbn; try reflexivity; lia. }
  destruct (Z.eqb_spec wt WireEndGroup) as [->|_]; eexists; reflexivity.
Qed.

End GroupScanTotal.

Lemma findGroupEnd_total fuel : forall cb,
  inBounds cb -> goSlice (buf cb) ->
  len (buf cb) - index cb + 1 < Z.of_nat fuel ->
  exists r, findGroupEnd fuel cb = Some (r, cb).
Proof.
  induction fuel as [|fuel IH]; intros cb Hin Hgo Hfuel.
  { unfold inBounds in Hin. lia. }
  destruct (findGroupEnd_loop_total (buf cb) Hgo
              (SkipGroup_with (findGroupEnd fuel)) (index cb)) with (fuel := fuel) (cb := cb)
    as [[r cb1] Hloop]; try reflexivity; try lia; try exact Hin.
  - intros cb2 Hb2 Hin2 Hlt.
    destruct (IH cb2 Hin2) as [[[g d] err] Hrun].
    { rewrite Hb2. exact Hgo. }
    { rewrite Hb2. lia. }
    unfold SkipGroup_with. rewrite Hrun.
    apply findGroupEnd_sound in Hrun as [_ Hg]; [|exact Hin2|rewrite Hb2; exact Hgo].
    destruct err as [e|].
    + exists (Some e), cb2. repeat split; try assumption; try apply Hin2. discriminate.
    + specialize (Hg eq_refl).
      pose proof (groupEnds_bounds _ _ _ _ Hg (proj1 Hin2)) as Hbd.
      exists None, (setIndex cb2 g). unfold inBounds in *. cbn [buf index setIndex].
      repeat split; try assumption; lia.
  - cbn [findGroupEnd]. rewrite Hloop.
    destruct r as [[g d] err].
    apply (findGroupEnd_loop_sound (buf cb) Hgo) in Hloop as (Hb & _);
      [ | | reflexivity | exact Hin].
    + rewrite setIndex_same by exact Hb. eexists. reflexivity.
    + apply SkipGroup_with_sound. intros cb2 g2 d2 err2 cb2' Hb2 Hin2 Hrun2.
      rewrite <- Hb2 in *. eapply findGroupEnd_sound; eassumption.
Qed.

(** ** The group-end scan finds every group the grammar describes *)

Lemma skipVarint_loop_finds fuel : forall bs limit i q,
  i <= q < limit -> q < len bs -> q - i <= Z.of_nat fuel ->
  (forall j, i <= j < q -> 128 <= byteAt bs j) -> byteAt bs q < 128 ->
  skipVarint_loop fuel bs limit i = inr q.
Proof.
  induction fuel as [|fuel IH]; intros bs limit i q Hq Hl Hfuel Hall Hlast;
    cbn [skipVarint_loop]; rewrite !Z.geb_leb; unfold byteAt at 1;
    rewrite high_bit_clear; fold (byteAt bs i);
    destruct (Z.leb_spec limit i); try lia;
    destruct (Z.leb_spec (len bs) i); try lia;
    destruct (Z.ltb_spec (byteAt bs i) 128) as [Hlo|Hhi].
  - f_equal. lia.
  - assert (i = q) by lia. subst. lia.
  - destruct (Z.eq_dec i q) as [->|Hne]; [reflexivity|].
    specialize (Hall i ltac:(lia)). lia.
  - destruct (Z.eq_dec i q) as [->|Hne]; [lia|].
    apply IH; try lia. intros j Hj. apply Hall. lia.
Qed.

Lemma findGroupEnd_loop_complete bs p d g :
  len bs + 10 <= MaxInt -> groupEnds bs p d g -> 0 <= p ->
  forall fuel n,
    len bs - p + 1 < Z.of_nat fuel -> len bs - p < Z.of_nat n ->
    findGroupEnd_loop n (SkipGroup_with (findGroupEnd fuel)) bs (mkBuffer bs p)
    = Some ((g, d, None), mkBuffer bs g).
Proof.
  unfold MaxInt. intros Hgo Hgrp.
  induction Hgrp as [p g fn Hd|p p1 p2 d g fn wt Hd Hv _ IH
                    |p p1 d1 g1 d g fn Hd Hg1 IH1 Hg2 IH2];
    intros Hp fuel n Hfuel Hn;
    pose proof (tag_at_bounds _ _ _ _ _ Hp Hd) as Ht;
    (destruct n as [|n]; [lia|]); cbn [findGroupEnd_loop]; rewrite Hd.
  - reflexivity.
  - pose proof (valueEnds_bounds bs wt p1 p2 ltac:(lia) Hv) as Hb.
    destruct Hv as [p1 Hle|p1 Hle|p1 q Hq Hl Hall Hlast|p1 q l Hdec Hl Hle].
    + cbn [Z.eqb WireFixed32 Pos.eqb]. unfold Skip. cbn [buf index setIndex].
      destruct (Z.leb_spec 0 4); [|lia].
      destruct (Z.leb_spec (p1 + 4) (len bs)); [|lia]. cbn [andb].
      apply IH; lia.
    + cbn [Z.eqb WireFixed32 WireFixed64 Pos.eqb]. unfold Skip. cbn [buf index setIndex].
      destruct (Z.leb_spec 0 8); [|lia].
      destruct (Z.leb_spec (p1 + 8) (len bs)); [|lia]. cbn [andb].
      apply IH; lia.
    + cbn [Z.eqb WireFixed32 WireFixed64 WireVarint index].
      assert (Hscan : skipVarint_loop 10 bs (int64 (p1 + 10)) p1 = inr q).
      { apply skipVarint_loop_finds; try assumption.
        - rewrite int64_small by lia. lia.
        - cbn. lia. }
      rewrite Hscan, int64_small by lia. apply IH; lia.
    + cbn [Z.eqb WireFixed32 WireFixed64 WireVarint WireBytes Pos.eqb].
      rewrite Hdec.
      pose proof (DecodeVarint_range (mkBuffer bs p1)) as Hrg.
      rewrite Hdec in Hrg. cbn [fst] in Hrg.
      rewrite int64_small by lia. unfold Skip. cbn [buf index setIndex].
      destruct (Z.leb_spec 0 l); [|lia].
      destruct (Z.leb_spec (q + l) (len bs)); [|lia]. cbn [andb].
      apply IH; lia.
  - cbn [Z.eqb WireFixed32 WireFixed64 WireVarint WireBytes WireStartGroup Pos.eqb].
    pose proof (groupEnds_bounds _ _ _ _ Hg1 ltac:(lia)) as Hb1.
    unfold SkipGroup_with at 1.
    destruct fuel as [|fuel]; [lia|]. cbn [findGroupEnd buf index].
    rewrite (IH1 ltac:(lia) fuel fuel) by lia.
    cbn [setIndex buf index].
    change (SkipGroup_with
              (fun cb => match findGroupEnd_loop fuel (SkipGroup_with (findGroupEnd fuel))
                                 (buf cb) cb with
                         | Some (r, cb0) => Some (r, setIndex cb0 (index cb))
                         | None => None
                         end))
      with (SkipGroup_with (findGroupEnd (S fuel))).
    apply IH2; lia.
Qed.

(** The scan computes [lim = i + 10] before it looks at a varint value, in
    [int] arithmetic: the grammar is met on every buffer ten bytes short
    of the largest slice. *)
Lemma findGroupEnd_complete bs p d g fuel :
  len bs + 10 <= MaxInt -> groupEnds bs p d g -> 0 <= p ->
  len bs - p + 2 < Z.of_nat fuel ->
  findGroupEnd fuel (mkBuffer bs p) = Some ((g, d, None), mkBuffer bs p).
Proof.
  intros Hgo Hg Hp Hfuel.
  pose proof (groupEnds_bounds _ _ _ _ Hg Hp) as Hbd.
  destruct fuel as [|fuel]; [lia|].
  cbn [findGroupEnd buf index].
  rewrite (findGroupEnd_loop_complete bs p d g Hgo Hg Hp fuel fuel) by lia.
  reflexivity.
Qed.

(** ** Frames of DecodeRawBytes and readValueFromBuffer *)

Lemma DecodeRawBytes_frame alloc cb :
  inBounds cb -> goSlice (buf cb) ->
  let '((_, err), cb') := DecodeRawBytes alloc cb in
  buf cb' = buf cb /\ inBounds cb' /\
  match err with
  | Some _ => index cb <= index cb'
  | None => index cb < index cb'
  end.
Proof.
  intros Hin Hgo.
  pose proof (DecodeVarint_frame cb (proj1 Hin)) as Hfr.
  pose proof (DecodeVarint_range cb) as Hrg.
  destruct (DecodeVarint cb) as [[n err] cb1] eqn:Hdec. cbn [fst] in Hrg.
  pose proof (DecodeRawBytes_cases alloc cb n err cb1 Hin Hgo Hdec) as Hc.
  destruct Hfr as [Hb Hfr]. unfold inBounds in *.
  destruct err as [e|].
  - rewrite Hc. subst cb1. repeat split; try reflexivity; lia.
  - destruct Hc as (Hneg & Hout & Hok).
    destruct (Z.lt_ge_cases n (2 ^ 63)) as [Hlt|Hge].
    + destruct (Z.lt_ge_cases (len (buf cb)) (index cb1 + n)) as [Hlt'|Hge'].
      * rewrite Hout by assumption. rewrite Hb. repeat split; lia.
      * rewrite Hok by assumption. cbn [buf index setIndex]. rewrite Hb.
        repeat split; lia.
    + rewrite Hneg by assumption. rewrite Hb. repeat split; lia.
Qed.

Lemma int64_add_in_bounds i k bound :
  0 <= i <= bound -> bound <= MaxInt -> 0 <= k < 2 ^ 63 ->
  0 <= int64 (i + k) <= bound -> int64 (i + k) = i + k.
Proof.
  unfold MaxInt. intros Hi Hb Hk Hr.
  destruct (Z.lt_ge_cases (i + k) (2 ^ 63)).
  - apply int64_small. lia.
  - rewrite int64_high in Hr by lia. lia.
Qed.

Lemma readValueFromBuffer_frame wireType buffer value :
  inBounds buffer -> goSlice (buf buffer) ->
  let '((_, err), buffer') := readValueFromBuffer wireType buffer value in
  buf buffer' = buf buffer /\ inBounds buffer' /\
  match err with
  | Some _ => index buffer <= index buffer'
  | None => index buffer < index buffer'
  end.
Proof.
  intros Hin Hgo. unfold readValueFromBuffer.
  destruct (Z.eqb_spec wireType WireVarint) as [_|_].
  { pose proof (DecodeVarint_frame buffer (proj1 Hin)) as Hfr.
    destruct (DecodeVarint buffer) as [[v [e|]] b']; destruct Hfr as [Hb Hfr];
      unfold inBounds in *.
    - subst b'. repeat split; try reflexivity; lia.
    - rewrite Hb. repeat split; lia. }
  destruct (Z.eqb_spec wireType WireFixed32) as [_|_].
  { pose proof (DecodeFixed32_frame buffer) as Hfr.
    destruct (DecodeFixed32 buffer) as [[v [e|]] b']; destruct Hfr as [Hb Hfr];
      unfold inBounds in *.
    - subst b'. repeat split; try reflexivity; lia.
    - destruct Hfr as [Hi Heq].
      pose proof (int64_add_in_bounds (index buffer) 4 (len (buf buffer))
                    Hin Hgo ltac:(lia)) as Hx.
      rewrite <- Heq, <- Hb in Hx. specialize (Hx Hi).
      repeat split; try assumption; lia. }
  destruct (Z.eqb_spec wireType WireFixed64) as [_|_].
  { pose proof (DecodeFixed64_frame buffer) as Hfr.
    destruct (DecodeFixed64 buffer) as [[v [e|]] b']; destruct Hfr as [Hb Hfr];
      unfold inBounds in *.
    - subst b'. repeat split; try reflexivity; lia.
    - destruct Hfr as [Hi Heq].
      pose proof (int64_add_in_bounds (index buffer) 8 (len (buf buffer))
                    Hin Hgo ltac:(lia)) as Hx.
      rewrite <- Heq, <- Hb in Hx. specialize (Hx Hi).
      repeat split; try assumption; lia. }
  destruct (Z.eqb_spec wireType WireBytes) as [_|_].
  { pose proof (DecodeRawBytes_frame false buffer Hin Hgo) as Hfr.
    destruct (DecodeRawBytes false buffer) as [[v [e|]] b']; exact Hfr. }
  unfold inBounds in *.
  destruct ((wireType =? WireStartGroup) || (wireType =? WireEndGroup));
    repeat split; try reflexivity; lia.
Qed.

(** ** The iterators return *)

Section IteratorsTotal.

Variable St : Type.

Lemma MessageEach_loop_total (fn : MessageEachFn St) fuel : forall buffer value st,
  inBounds buffer -> goSlice (buf buffer) ->
  len (buf buffer) - index buffer <= Z.of_nat fuel ->
  exists err buffer' st',
    MessageEach_loop fuel fn buffer value st = Some (err, buffer', st') /\
    buf buffer' = buf buffer /\ inBounds buffer'.
Proof.
  induction fuel as [|fuel IH]; intros buffer value st Hin Hgo Hfuel;
    cbn [MessageEach_loop]; unfold EOF;
    destruct (Z.eqb_spec (index buffer) (len (buf buffer))) as [Heof|Hne];
    cbn [negb].
  - do 3 eexists. repeat split; apply Hin.
  - unfold inBounds in Hin; lia.
  - do 3 eexists. repeat split; apply Hin.
  - pose proof (DecodeTagAndWireType_frame buffer (proj1 Hin)) as Hfr.
    destruct (DecodeTagAndWireType buffer) as [[[fieldNum wireType] err] b1].
    destruct Hfr as (Hb1 & Hle1 & Hin1 & _).
    assert (Hin1' : inBounds b1)
      by (unfold inBounds in *; rewrite Hb1; split; [lia | apply Hin1; lia]).
    destruct (isEOF err).
    { do 3 eexists. repeat split; [exact Hb1 | apply Hin1' | apply Hin1']. }
    pose proof (readValueFromBuffer_frame wireType b1 value Hin1'
                  ltac:(rewrite Hb1; exact Hgo)) as Hfr.
    destruct (readValueFromBuffer wireType b1 value) as [[value' [e|]] b2];
      destruct Hfr as (Hb2 & Hin2 & Hidx).
    { do 3 eexists. repeat split; [congruence | apply Hin2 | apply Hin2]. }
    destruct (fn st fieldNum value') as [[shouldContinue err'] st1].
    destruct (negb (isNil err') || negb shouldContinue).
    { do 3 eexists. repeat split; [congruence | apply Hin2 | apply Hin2]. }
    destruct (IH b2 value' st1 Hin2) as (e & b3 & st3 & Hrun & Hb3 & Hin3).
    + rewrite Hb2, Hb1. exact Hgo.
    + rewrite Hb2, Hb1. lia.
    + exists e, b3, st3. repeat split; [exact Hrun | congruence | apply Hin3 | apply Hin3].
Qed.

Lemma PackedRepeatedEach_loop_total (fn : PackedRepeatedEachFn St) wireType fuel :
  forall buffer value st,
  inBounds buffer -> goSlice (buf buffer) ->
  len (buf buffer) - index buffer <= Z.of_nat fuel ->
  exists err buffer' st',
    PackedRepeatedEach_loop fuel wireType fn buffer value st = Some (err, buffer', st') /\
    buf buffer' = buf buffer /\ inBounds buffer'.
Proof.
  induction fuel as [|fuel IH]; intros buffer value st Hin Hgo Hfuel;
    cbn [PackedRepeatedEach_loop]; unfold EOF;
    destruct (Z.eqb_spec (index buffer) (len (buf buffer))) as [Heof|Hne];
    cbn [negb].
  - do 3 eexists. repeat split; apply Hin.
  - unfold inBounds in Hin; lia.
  - do 3 eexists. repeat split; apply Hin.
  - pose proof (readValueFromBuffer_frame wireType buffer value Hin Hgo) as Hfr.
    destruct (readValueFromBuffer wireType buffer value) as [[value' [e|]] b2];
      destruct Hfr as (Hb2 & Hin2 & Hidx).
    { do 3 eexists. repeat split; [congruence | apply Hin2 | apply Hin2]. }
    destruct (fn st value') as [[shouldContinue err'] st1].
    destruct (negb (isNil err') || negb shouldContinue).
    { do 3 eexists. repeat split; [congruence | apply Hin2 | apply Hin2]. }
    destruct (IH b2 value' st1 Hin2) as (e & b3 & st3 & Hrun & Hb3 & Hin3).
    + rewrite Hb2. exact Hgo.
    + rewrite Hb2. lia.
    + exists e, b3, st3. repeat split; [exact Hrun | congruence | apply Hin3 | apply Hin3].
Qed.

End IteratorsTotal.

(** ** PackedRepeatedEach and what its callback reports *)

Section CallbackLog.

Variable St : Type.
Variable fn : PackedRepeatedEachFn St.

(** Instrumenting the callback changes nothing but the log. *)
Lemma PackedRepeatedEach_loop_logged fuel wireType : forall buffer value st log,
  option_map (fun '(err, buffer', (st', _)) => (err, buffer', st'))
    (PackedRepeatedEach_loop fuel wireType (logged fn) buffer value (st, log))
  = PackedRepeatedEach_loop fuel wireType fn buffer value st.
Proof.
  induction fuel as [|fuel IH]; intros buffer value st log;
    cbn [PackedRepeatedEach_loop]; destruct (negb (EOF buffer)); try reflexivity.
  destruct (readValueFromBuffer wireType buffer value) as [[value' [e|]] b2];
    [reflexivity|].
  unfold logged at 1. cbn [fst snd].
  destruct (fn st value') as [[shouldContinue err'] st1].
  destruct (negb (isNil err') || negb shouldContinue); [reflexivity|].
  apply IH.
Qed.

(** Once the callback has reported an error or "do not continue", it is
    not invoked again and the loop returns [nil]. *)
Lemma PackedRepeatedEach_loop_stops fuel wireType :
  forall buffer value st log err buffer' st' log',
  (forall r, In r log -> stops r = false) ->
  PackedRepeatedEach_loop fuel wireType (logged fn) buffer value (st, log)
    = Some (err, buffer', (st', log')) ->
  forall i r, nth_error log' i = Some r -> stops r = true ->
    S i = length log' /\ err = None.
Proof.
  induction fuel as [|fuel IH]; intros buffer value st log err buffer' st' log' Hlog;
    cbn [PackedRepeatedEach_loop]; destruct (negb (EOF buffer));
    try discriminate.
  - intros Hrun i r Hi Hr. injection Hrun as <- <- <- <-.
    apply nth_error_In, Hlog in Hi. congruence.
  - destruct (readValueFromBuffer wireType buffer value) as [[value' [e|]] b2].
    { intros Hrun i r Hi Hr. injection Hrun as <- <- <- <-.
      apply nth_error_In, Hlog in Hi. congruence. }
    unfold logged at 1. cbn [fst snd].
    destruct (fn st value') as [[shouldContinue err'] st1].
    destruct (negb (isNil err') || negb shouldContinue) eqn:Hstop.
    + intros Hrun i r Hi Hr. injection Hrun as <- <- <- <-.
      split; [|reflexivity]. rewrite length_app. cbn [length].
      destruct (Nat.lt_ge_cases i (length log)) as [Hlt|Hge].
      * rewrite nth_error_app1 in Hi by exact Hlt.
        apply nth_error_In, Hlog in Hi. congruence.
      * assert (Hlen : (i < length (log ++ [(shouldContinue, err')]))%nat)
          by (apply nth_error_Some; congruence).
        rewrite length_app in Hlen. cbn [length] in Hlen. lia.
    + apply IH. intros r Hin. apply in_app_or in Hin as [Hin|[<-|[]]].
      * apply Hlog, Hin.
      * exact Hstop.
  - intros Hrun i r Hi Hr. injection Hrun as <- <- <- <-.
    apply nth_error_In, Hlog in Hi. congruence.
Qed.

End CallbackLog.

Lemma DecodeVarint_loop_error_kind fuel : forall cb l shift i x v e cb',
  DecodeVarint_loop fuel cb l shift i x = ((v, Some e), cb') ->
  e = io_ErrUnexpectedEOF \/ e = ErrOverflow.
Proof.
  induction fuel as [|fuel IH]; intros cb l shift i x v e cb';
    cbn [DecodeVarint_loop]; zcases; intros Hrun;
    try (injection Hrun as <- <- <-; auto); try discriminate.
  eapply IH, Hrun.
Qed.

(** * The claims *)

(** C1 (the code departs from the claim). The claim: [MessageEach]
    propagates every failure of [DecodeTagAndWireType] other than
    end-of-input at a field boundary, and in particular returns the
    tag-out-of-range error instead of decoding a value. The code tests
    the error only against [io.EOF]: on the input below the tag decodes to
    field number 2^31, [DecodeTagAndWireType] reports the out-of-range
    error, and [MessageEach] nevertheless decodes the varint that follows,
    hands it to the callback as field 0, and returns [nil]. *)
Theorem MessageEach_drops_tag_out_of_range :
  let input := [x80; x80; x80; x80; x40; x01] in
  DecodeTagAndWireType (NewBuffer input)
    = ((0, WireVarint, Some (ErrTagOutOfRange (2 ^ 31))), mkBuffer input 5) /\
  MessageEach 6 (NewBuffer input) callbacks.recordFields []
    = Some (None, mkBuffer input 6, [(0, mkValue WireVarint 1 [])]).
Proof. split; vm_compute; reflexivity. Qed.

(** C2, as stated, fails: with length prefix 5 and one byte of payload the
    prefix is decoded in full and the end offset is out of bounds, yet the
    error is UnexpectedEndOfInput and not BadLength. *)
Lemma DecodeRawBytes_out_of_bounds_is_not_BadLength :
  let cb := NewBuffer [x05; x01] in
  DecodeVarint cb = ((5, None), setIndex cb 1) /\
  len (buf cb) < 1 + 5 /\
  (forall alloc, DecodeRawBytes alloc cb = (([], Some io_ErrUnexpectedEOF), setIndex cb 1)) /\
  (forall alloc nb, snd (fst (DecodeRawBytes alloc cb)) <> Some (ErrBadByteLength nb)).
Proof.
  cbv zeta. split; [reflexivity|]. split; [reflexivity|]. split.
  - intros [|]; reflexivity.
  - intros [|] nb; vm_compute; discriminate.
Qed.

(** C2 (amended). [DecodeRawBytes] returns the error of [DecodeVarint]
    when the length prefix cannot be decoded (UnexpectedEndOfInput when it
    is truncated, Overflow when it is overlong); it fails with BadLength
    when the decoded length is negative as an [int]; it fails with
    UnexpectedEndOfInput when the length is not negative and the end
    offset is past the sequence length; otherwise it returns the bytes
    that follow the prefix and moves to the end offset. In every failure
    the position is the one [DecodeVarint] left. *)
Theorem DecodeRawBytes_failures alloc cb n err cb1 :
  inBounds cb -> goSlice (buf cb) ->
  DecodeVarint cb = ((n, err), cb1) ->
  match err with
  | Some e =>
      (e = io_ErrUnexpectedEOF \/ e = ErrOverflow) /\
      DecodeRawBytes alloc cb = (([], Some e), cb1)
  | None =>
      (int64 n < 0 ->
       DecodeRawBytes alloc cb = (([], Some (ErrBadByteLength (int64 n))), cb1)) /\
      (0 <= int64 n -> len (buf cb) < index cb1 + int64 n ->
       DecodeRawBytes alloc cb = (([], Some io_ErrUnexpectedEOF), cb1)) /\
      (0 <= int64 n -> index cb1 + int64 n <= len (buf cb) ->
       DecodeRawBytes alloc cb =
         ((slice (buf cb) (index cb1) (index cb1 + int64 n), None),
          setIndex cb1 (index cb1 + int64 n)))
  end.
Proof.
  intros Hin Hgo Hdec.
  pose proof (DecodeRawBytes_cases alloc cb n err cb1 Hin Hgo Hdec) as Hc.
  pose proof (DecodeVarint_range cb) as Hrg. rewrite Hdec in Hrg. cbn [fst] in Hrg.
  destruct err as [e|].
  - split; [|exact Hc]. eapply DecodeVarint_loop_error_kind, Hdec.
  - destruct Hc as (Hneg & Hout & Hok).
    destruct (Z.lt_ge_cases n (2 ^ 63)) as [Hlt|Hge].
    + rewrite int64_small by lia. repeat split; intros; try lia; auto.
    + rewrite int64_high by lia. repeat split; intros; try lia; auto.
Qed.

Lemma DecodeRawBytes_failures_witness :
  let cb := NewBuffer [x05; x01] in
  (int64 5 < 0 ->
   DecodeRawBytes false cb = (([], Some (ErrBadByteLength (int64 5))), setIndex cb 1)) /\
  (0 <= int64 5 -> len (buf cb) < index (setIndex cb 1) + int64 5 ->
   DecodeRawBytes false cb = (([], Some io_ErrUnexpectedEOF), setIndex cb 1)) /\
  (0 <= int64 5 -> index (setIndex cb 1) + int64 5 <= len (buf cb) ->
   DecodeRawBytes false cb =
     ((slice (buf cb) (index (setIndex cb 1)) (index (setIndex cb 1) + int64 5), None),
      setIndex (setIndex cb 1) (index (setIndex cb 1) + int64 5))).
Proof.
  apply (DecodeRawBytes_failures false (NewBuffer [x05; x01]) 5 None
           (setIndex (NewBuffer [x05; x01]) 1)).
  - unfold inBounds. vm_compute. split; discriminate.
  - unfold goSlice. vm_compute. discriminate.
  - reflexivity.
Defined.

(** C3. For a mapped field type, [PackedRepeatedEach] returns (given fuel
    for one element per remaining byte), and whenever an invocation of the
    callback reports an error or "do not continue", that invocation is the
    last one and [PackedRepeatedEach] returns [nil], whatever the callback
    reported. The log of what the callback reported is kept by [logged],
    which changes nothing else in the run. *)
Theorem PackedRepeatedEach_stops_with_nil
  (St : Type) (fn : PackedRepeatedEachFn St) (st : St)
  (fuel : nat) (buffer : Buffer) (fieldType : FieldType) (wireType : Z) :
  packedWireType fieldType = Some wireType ->
  inBounds buffer -> goSlice (buf buffer) ->
  len (buf buffer) - index buffer <= Z.of_nat fuel ->
  exists err buffer' st' log,
    PackedRepeatedEach fuel buffer fieldType fn st = Some (err, buffer', st') /\
    PackedRepeatedEach fuel buffer fieldType (logged fn) (st, [])
      = Some (err, buffer', (st', log)) /\
    forall i r, nth_error log i = Some r -> stops r = true ->
      S i = length log /\ err = None.
Proof.
  intros Hwt Hin Hgo Hfuel. unfold PackedRepeatedEach. rewrite Hwt.
  destruct (PackedRepeatedEach_loop_total _ (logged fn) wireType fuel buffer
              zeroValue (st, []) Hin Hgo Hfuel)
    as (err & buffer' & [st' log] & Hrun & _).
  exists err, buffer', st', log. split; [|split].
  - rewrite <- (PackedRepeatedEach_loop_logged St fn fuel wireType buffer zeroValue st []).
    rewrite Hrun. reflexivity.
  - exact Hrun.
  - eapply PackedRepeatedEach_loop_stops; [|exact Hrun]. intros r [].
Qed.

Lemma PackedRepeatedEach_stops_with_nil_witness :
  let buffer := NewBuffer [x01; x02; xac; x02] in
  exists err buffer' st' log,
    PackedRepeatedEach 4 buffer FieldType_INT64 callbacks.failSecond 0%nat
      = Some (err, buffer', st') /\
    PackedRepeatedEach 4 buffer FieldType_INT64 (logged callbacks.failSecond) (0%nat, [])
      = Some (err, buffer', (st', log)) /\
    forall i r, nth_error log i = Some r -> stops r = true ->
      S i = length log /\ err = None.
Proof.
  apply (PackedRepeatedEach_stops_with_nil nat callbacks.failSecond 0%nat 4
           (NewBuffer [x01; x02; xac; x02]) FieldType_INT64 WireVarint).
  - reflexivity.
  - unfold inBounds. vm_compute. split; discriminate.
  - unfold goSlice. vm_compute. discriminate.
  - vm_compute. discriminate.
Defined.

Example PackedRepeatedEach_failSecond_run :
  PackedRepeatedEach 4 (NewBuffer [x01; x02; xac; x02]) FieldType_INT64
    (logged callbacks.failSecond) (0%nat, [])
  = Some (None, mkBuffer [x01; x02; xac; x02] 2,
          (2%nat, [(true, None); (true, Some callbacks.secondError)])).
Proof. reflexivity. Qed.

(** C4. For every unsigned 64-bit [n], [DecodeVarint] on a buffer whose
    remaining bytes begin with the canonical encoding of [n] returns [n]
    and no error, advances the position by the length of the encoding, and
    leaves the bytes alone. *)
Theorem DecodeVarint_EncodeVarint n cb rest :
  0 <= n < 2 ^ 64 -> inBounds cb ->
  remaining cb = EncodeVarint n ++ rest ->
  fst (DecodeVarint cb) = (n, None) /\
  index (snd (DecodeVarint cb)) = index cb + len (EncodeVarint n) /\
  buf (snd (DecodeVarint cb)) = buf cb.
Proof.
  intros Hn Hin Hrem.
  rewrite (DecodeVarint_of_encoding n cb rest Hn (proj1 Hin) Hrem).
  repeat split.
Qed.

Lemma DecodeVarint_EncodeVarint_witness :
  let cb := mkBuffer [x08; xac; x02; x01] 1 in
  fst (DecodeVarint cb) = (300, None) /\
  index (snd (DecodeVarint cb)) = index cb + len (EncodeVarint 300) /\
  buf (snd (DecodeVarint cb)) = buf cb.
Proof.
  apply (DecodeVarint_EncodeVarint 300 (mkBuffer [x08; xac; x02; x01] 1) [x01]).
  - lia.
  - unfold inBounds. vm_compute. split; discriminate.
  - reflexivity.
Defined.

(** C5. [DecodeVarint] fails with Overflow when the next ten bytes all
    have the continuation bit set, and with UnexpectedEndOfInput when the
    input ends before a byte with the bit clear is found, that is, when
    fewer than ten bytes remain and all of them have the bit set. In both
    cases the buffer is left as it was. *)
Theorem DecodeVarint_failures cb :
  inBounds cb ->
  (forall pre rest,
     remaining cb = pre ++ rest -> length pre = 10%nat ->
     forallb continues pre = true ->
     exists x, DecodeVarint cb = ((x, Some ErrOverflow), cb)) /\
  ((length (remaining cb) < 10)%nat ->
   forallb continues (remaining cb) = true ->
   exists x, DecodeVarint cb = ((x, Some io_ErrUnexpectedEOF), cb)).
Proof.
  intros Hin. split.
  - intros pre rest Hrem Hlen Hall. unfold DecodeVarint.
    apply (DecodeVarint_loop_overflow 10 cb 0 (index cb) 0 pre rest);
      try assumption; try reflexivity; apply Hin.
  - intros Hlen Hall. unfold DecodeVarint.
    apply (DecodeVarint_loop_truncated 10 cb 0 (index cb) 0);
      try assumption; try reflexivity; apply Hin.
Qed.

Lemma DecodeVarint_failures_witness :
  (exists x,
     DecodeVarint (NewBuffer [xff; xff; xff; xff; xff; xff; xff; xff; xff; xff; x01])
     = ((x, Some ErrOverflow),
        NewBuffer [xff; xff; xff; xff; xff; xff; xff; xff; xff; xff; x01])) /\
  (exists x,
     DecodeVarint (mkBuffer [x08; xac; x82] 1)
     = ((x, Some io_ErrUnexpectedEOF), mkBuffer [x08; xac; x82] 1)).
Proof.
  split.
  - apply (proj1 (DecodeVarint_failures
                    (NewBuffer [xff; xff; xff; xff; xff; xff; xff; xff; xff; xff; x01])
                    ltac:(unfold inBounds; vm_compute; split; discriminate))
             [xff; xff; xff; xff; xff; xff; xff; xff; xff; xff] [x01]);
      reflexivity.
  - apply (proj2 (DecodeVarint_failures (mkBuffer [x08; xac; x82] 1)
                    ltac:(unfold inBounds; vm_compute; split; discriminate))).
    + vm_compute. lia.
    + reflexivity.
Defined.

(** C6. From a buffer within bounds, [findGroupEnd] returns (given fuel
    for one field per remaining byte) and every return leaves the buffer,
    so its position, as at entry. When it finds [groupEnd] and [dataEnd],
    the fields from the starting position run up to the matching EndGroup
    tag, which occupies [dataEnd, groupEnd); [SkipGroup] sets the position
    to [groupEnd]; [ReadGroup] sets the same position and returns the
    bytes from the starting position up to [dataEnd], in both allocation
    modes. When it fails, both return its error and leave the position
    alone. *)
Theorem group_scan_restores_and_commits cb :
  inBounds cb -> goSlice (buf cb) ->
  (forall fuel r cb', findGroupEnd fuel cb = Some (r, cb') -> cb' = cb) /\
  (forall fuel, len (buf cb) - index cb + 1 < Z.of_nat fuel ->
     exists r, findGroupEnd fuel cb = Some (r, cb)) /\
  (forall fuel groupEnd dataEnd,
     findGroupEnd fuel cb = Some ((groupEnd, dataEnd, None), cb) ->
     groupEnds (buf cb) (index cb) dataEnd groupEnd /\
     (exists fieldNumber,
        DecodeTagAndWireType (setIndex cb dataEnd)
        = ((fieldNumber, WireEndGroup, None), setIndex cb groupEnd)) /\
     SkipGroup fuel cb = Some (None, setIndex cb groupEnd) /\
     forall alloc,
       ReadGroup fuel alloc cb
       = Some ((slice (buf cb) (index cb) dataEnd, None), setIndex cb groupEnd)) /\
  (forall fuel groupEnd dataEnd e,
     findGroupEnd fuel cb = Some ((groupEnd, dataEnd, Some e), cb) ->
     SkipGroup fuel cb = Some (Some e, cb) /\
     forall alloc, ReadGroup fuel alloc cb = Some (([], Some e), cb)).
Proof.
  intros Hin Hgo. repeat apply conj.
  - intros fuel [[g d] err] cb' Hrun.
    eapply findGroupEnd_sound; eassumption.
  - intros fuel Hfuel. apply findGroupEnd_total; assumption.
  - intros fuel g d Hrun.
    destruct (findGroupEnd_sound _ _ _ _ _ _ Hin Hgo Hrun) as [_ Hg].
    specialize (Hg eq_refl).
    pose proof (groupEnds_bounds _ _ _ _ Hg (proj1 Hin)) as Hbd.
    repeat apply conj.
    + exact Hg.
    + exact (groupEnds_end_tag _ _ _ _ Hg).
    + unfold SkipGroup, SkipGroup_with. rewrite Hrun. reflexivity.
    + intros alloc. unfold ReadGroup. rewrite Hrun.
      destruct alloc; cbn [negb]; [|reflexivity].
      rewrite copy_make_slice by (unfold inBounds in Hin; lia).
      replace (index cb + (d - index cb)) with d by lia. reflexivity.
  - intros fuel g d e Hrun. split.
    + unfold SkipGroup, SkipGroup_with. rewrite Hrun. reflexivity.
    + intros alloc. unfold ReadGroup. rewrite Hrun. reflexivity.
Qed.

Lemma group_scan_restores_and_commits_witness :
  let cb := mkBuffer [x0b; x0b; x0c; x0c; x08] 1 in
  findGroupEnd 6 cb = Some ((4, 3, None), cb) /\
  SkipGroup 6 cb = Some (None, setIndex cb 4) /\
  ReadGroup 6 false cb = Some (([x0b; x0c], None), setIndex cb 4) /\
  ReadGroup 6 true cb = Some (([x0b; x0c], None), setIndex cb 4).
Proof.
  cbv zeta.
  assert (Hrun : findGroupEnd 6 (mkBuffer [x0b; x0b; x0c; x0c; x08] 1)
                 = Some ((4, 3, None), mkBuffer [x0b; x0b; x0c; x0c; x08] 1))
    by reflexivity.
  destruct (group_scan_restores_and_commits (mkBuffer [x0b; x0b; x0c; x0c; x08] 1))
    as (_ & _ & Hok & _).
  - unfold inBounds. vm_compute. split; discriminate.
  - unfold goSlice. vm_compute. discriminate.
  - destruct (Hok 6%nat 4 3 Hrun) as (_ & _ & Hskip & Hread).
    split; [exact Hrun|]. split; [exact Hskip|].
    split; [exact (Hread false) | exact (Hread true)].
Defined.

(** C7. For every signed [n] of the width, the zig-zag decoder applied to
    [zigzag(n) = (n << 1) XOR (n >> (width - 1))] returns [n]. *)
Theorem DecodeZigZag_zigzag :
  (forall n, - 2 ^ 31 <= n < 2 ^ 31 -> DecodeZigZag32 (zigzag32 n) = n) /\
  (forall n, - 2 ^ 63 <= n < 2 ^ 63 -> DecodeZigZag64 (zigzag64 n) = n).
Proof. split; [exact DecodeZigZag32_zigzag32 | exact DecodeZigZag64_zigzag64]. Qed.

Lemma DecodeZigZag_zigzag_witness :
  DecodeZigZag32 (zigzag32 (- 2 ^ 31)) = - 2 ^ 31 /\
  DecodeZigZag64 (zigzag64 (-3)) = -3.
Proof.
  split.
  - apply (proj1 DecodeZigZag_zigzag (- 2 ^ 31)). lia.
  - apply (proj2 DecodeZigZag_zigzag (-3)). lia.
Defined.

Example zigzag32_values :
  zigzag32 0 = 0 /\ zigzag32 (-1) = 1 /\ zigzag32 1 = 2 /\ zigzag32 (-2) = 3 /\
  zigzag32 (2 ^ 31 - 1) = 2 ^ 32 - 2 /\ zigzag32 (- 2 ^ 31) = 2 ^ 32 - 1.
Proof. repeat split. Qed.

(** C8. For every field number from 1 to the maximum signed 32-bit value
    and every wire type from 0 to 5, [DecodeTagAndWireType] on a buffer
    whose remaining bytes begin with the variable-length-integer encoding
    of [(fieldNumber << 3) | wireType] returns that field number and wire
    type and no error, and stops right after the encoding. *)
Theorem DecodeTagAndWireType_roundtrip fieldNumber wireType cb rest :
  1 <= fieldNumber <= MaxInt32 -> 0 <= wireType <= 5 ->
  inBounds cb ->
  remaining cb = EncodeTagAndWireType fieldNumber wireType ++ rest ->
  DecodeTagAndWireType cb =
    ((fieldNumber, wireType, None),
     setIndex cb (index cb + len (EncodeTagAndWireType fieldNumber wireType))).
Proof.
  intros Hf Hw Hin Hrem.
  apply (DecodeTagAndWireType_Encode_eq fieldNumber wireType cb rest);
    try assumption; try lia. apply Hin.
Qed.

Lemma DecodeTagAndWireType_roundtrip_witness :
  let cb := NewBuffer [xfd; xff; xff; xff; x3f; x07] in
  DecodeTagAndWireType cb =
    ((MaxInt32, WireFixed32, None),
     setIndex cb (index cb + len (EncodeTagAndWireType MaxInt32 WireFixed32))).
Proof.
  apply (DecodeTagAndWireType_roundtrip MaxInt32 WireFixed32
           (NewBuffer [xfd; xff; xff; xff; x3f; x07]) [x07]).
  - unfold MaxInt32. lia.
  - unfold WireFixed32. lia.
  - unfold inBounds. vm_compute. split; discriminate.
  - reflexivity.
Defined.

(** C9. Every decode operation, started within bounds, ends within
    bounds over the same bytes: only the position changes. [SkipGroup] and
    [ReadGroup] moreover return, given fuel for one field per remaining
    byte. *)
Theorem decoders_preserve_cursor_invariant cb :
  inBounds cb -> goSlice (buf cb) ->
  (inBounds (snd (DecodeVarint cb)) /\ buf (snd (DecodeVarint cb)) = buf cb) /\
  (inBounds (snd (DecodeTagAndWireType cb)) /\
   buf (snd (DecodeTagAndWireType cb)) = buf cb) /\
  (inBounds (snd (DecodeFixed32 cb)) /\ buf (snd (DecodeFixed32 cb)) = buf cb) /\
  (inBounds (snd (DecodeFixed64 cb)) /\ buf (snd (DecodeFixed64 cb)) = buf cb) /\
  (forall alloc,
     inBounds (snd (DecodeRawBytes alloc cb)) /\
     buf (snd (DecodeRawBytes alloc cb)) = buf cb) /\
  (forall fuel alloc r cb',
     ReadGroup fuel alloc cb = Some (r, cb') -> inBounds cb' /\ buf cb' = buf cb) /\
  (forall fuel r cb',
     SkipGroup fuel cb = Some (r, cb') -> inBounds cb' /\ buf cb' = buf cb) /\
  (forall fuel, len (buf cb) - index cb + 1 < Z.of_nat fuel ->
     (exists r, SkipGroup fuel cb = Some r) /\
     (forall alloc, exists r, ReadGroup fuel alloc cb = Some r)).
Proof.
  intros Hin Hgo.
  assert (Hscan : forall fuel g d err cb1,
             findGroupEnd fuel cb = Some ((g, d, err), cb1) ->
             cb1 = cb /\ (err = None -> inBounds (setIndex cb g))).
  { intros fuel g d err cb1 Hrun.
    destruct (findGroupEnd_sound _ _ _ _ _ _ Hin Hgo Hrun) as [-> Hg].
    split; [reflexivity|]. intros He.
    pose proof (groupEnds_bounds _ _ _ _ (Hg He) (proj1 Hin)) as Hbd.
    unfold inBounds in *. cbn [buf index setIndex]. lia. }
  split; [|split; [|split; [|split; [|split; [|split; [|split]]]]]].
  - pose proof (DecodeVarint_frame cb (proj1 Hin)) as Hfr.
    destruct (DecodeVarint cb) as [[v [e|]] cb']; destruct Hfr as [Hb Hfr]; cbn [snd].
    + subst cb'. split; [exact Hin | reflexivity].
    + split; [|exact Hb]. unfold inBounds in *. rewrite Hb. lia.
  - pose proof (DecodeTagAndWireType_frame cb (proj1 Hin)) as Hfr.
    destruct (DecodeTagAndWireType cb) as [[[fn wt] e] cb'].
    destruct Hfr as (Hb & Hle & Hup & _). cbn [snd]. split; [|exact Hb].
    unfold inBounds in *. rewrite Hb. split; [lia | apply Hup; lia].
  - pose proof (DecodeFixed32_frame cb) as Hfr.
    destruct (DecodeFixed32 cb) as [[v [e|]] cb']; destruct Hfr as [Hb Hfr]; cbn [snd].
    + subst cb'. split; [exact Hin | reflexivity].
    + split; [apply Hfr | exact Hb].
  - pose proof (DecodeFixed64_frame cb) as Hfr.
    destruct (DecodeFixed64 cb) as [[v [e|]] cb']; destruct Hfr as [Hb Hfr]; cbn [snd].
    + subst cb'. split; [exact Hin | reflexivity].
    + split; [apply Hfr | exact Hb].
  - intros alloc. pose proof (DecodeRawBytes_frame alloc cb Hin Hgo) as Hfr.
    destruct (DecodeRawBytes alloc cb) as [[v e] cb'].
    destruct Hfr as (Hb & Hi & _). split; assumption.
  - intros fuel alloc r cb'. unfold ReadGroup.
    destruct (findGroupEnd fuel cb) as [[[[g d] err] cb1]|] eqn:Hrun; [|discriminate].
    destruct (Hscan _ _ _ _ _ Hrun) as [-> Hg].
    destruct err as [e|]; intros H'; injection H' as <- <-.
    + split; [exact Hin | reflexivity].
    + split; [exact (Hg eq_refl) | reflexivity].
  - intros fuel r cb'. unfold SkipGroup, SkipGroup_with.
    destruct (findGroupEnd fuel cb) as [[[[g d] err] cb1]|] eqn:Hrun; [|discriminate].
    destruct (Hscan _ _ _ _ _ Hrun) as [-> Hg].
    destruct err as [e|]; intros H'; injection H' as <- <-.
    + split; [exact Hin | reflexivity].
    + split; [exact (Hg eq_refl) | reflexivity].
  - intros fuel Hfuel.
    destruct (findGroupEnd_total fuel cb Hin Hgo Hfuel) as [[[g d] err] Hrun].
    split.
    + unfold SkipGroup, SkipGroup_with. rewrite Hrun.
      destruct err; eexists; reflexivity.
    + intros alloc. unfold ReadGroup. rewrite Hrun.
      destruct err; eexists; reflexivity.
Qed.

Lemma decoders_preserve_cursor_invariant_witness :
  let cb := mkBuffer [x0b; x0a; x02; x01; x02; x0c; x08] 1 in
  inBounds (snd (DecodeVarint cb)) /\
  inBounds (snd (DecodeFixed32 cb)) /\
  (forall r cb', SkipGroup 8 cb = Some (r, cb') -> inBounds cb' /\ buf cb' = buf cb) /\
  (exists r, SkipGroup 8 cb = Some r).
Proof.
  cbv zeta.
  destruct (decoders_preserve_cursor_invariant
              (mkBuffer [x0b; x0a; x02; x01; x02; x0c; x08] 1))
    as ((Hv & _) & _ & (H32 & _) & _ & _ & _ & Hskip & Htotal).
  - unfold inBounds. vm_compute. split; discriminate.
  - unfold goSlice. vm_compute. discriminate.
  - split; [exact Hv|]. split; [exact H32|]. split; [exact (Hskip 8%nat)|].
    apply (Htotal 8%nat). vm_compute. reflexivity.
Defined.

Example SkipGroup_over_bytes_field :
  SkipGroup 8 (mkBuffer [x0b; x0a; x02; x01; x02; x0c; x08] 1)
  = Some (None, mkBuffer [x0b; x0a; x02; x01; x02; x0c; x08] 6).
Proof. reflexivity. Qed.

(** C10. When [DecodeVarint], [DecodeFixed32] or [DecodeFixed64] returns
    an error, the buffer (so the position) is as at entry. [DecodeRawBytes]
    is different: when its length prefix is decoded and it then fails, the
    position has moved past the prefix. *)
Theorem failing_decodes_and_position cb :
  inBounds cb ->
  (forall x e cb', DecodeVarint cb = ((x, Some e), cb') -> cb' = cb) /\
  (forall x e cb', DecodeFixed32 cb = ((x, Some e), cb') -> cb' = cb) /\
  (forall x e cb', DecodeFixed64 cb = ((x, Some e), cb') -> cb' = cb) /\
  (forall alloc n cb1 b e cb',
     DecodeVarint cb = ((n, None), cb1) ->
     DecodeRawBytes alloc cb = ((b, Some e), cb') ->
     cb' = cb1 /\ index cb < index cb').
Proof.
  intros Hin. repeat apply conj.
  - intros x e cb' Hrun. eapply DecodeVarint_error, Hrun.
  - intros x e cb' Hrun. pose proof (DecodeFixed32_frame cb) as Hfr.
    rewrite Hrun in Hfr. apply Hfr.
  - intros x e cb' Hrun. pose proof (DecodeFixed64_frame cb) as Hfr.
    rewrite Hrun in Hfr. apply Hfr.
  - intros alloc n cb1 b e cb' Hdec. unfold DecodeRawBytes. rewrite Hdec.
    pose proof (DecodeVarint_frame cb (proj1 Hin)) as Hfr. rewrite Hdec in Hfr.
    destruct Hfr as [_ Hidx].
    destruct (int64 n <? 0).
    { intros H'. injection H' as <- <- <-. split; [reflexivity | lia]. }
    destruct ((int64 (index cb1 + int64 n) <? index cb1)
              || (int64 (index cb1 + int64 n) >? len (buf cb1))).
    { intros H'. injection H' as <- <- <-. split; [reflexivity | lia]. }
    destruct (negb alloc); discriminate.
Qed.

Lemma failing_decodes_and_position_witness :
  snd (DecodeVarint (NewBuffer [x80; x80])) = NewBuffer [x80; x80] /\
  snd (DecodeFixed32 (NewBuffer [x01; x02; x03])) = NewBuffer [x01; x02; x03] /\
  snd (DecodeFixed64 (NewBuffer [x01; x02; x03])) = NewBuffer [x01; x02; x03] /\
  snd (DecodeRawBytes false (NewBuffer [x05; x01])) = mkBuffer [x05; x01] 1.
Proof.
  repeat apply conj.
  - apply (proj1 (failing_decodes_and_position (NewBuffer [x80; x80])
                    ltac:(unfold inBounds; vm_compute; split; discriminate))
             0 io_ErrUnexpectedEOF).
    reflexivity.
  - apply (proj1 (proj2 (failing_decodes_and_position (NewBuffer [x01; x02; x03])
                           ltac:(unfold inBounds; vm_compute; split; discriminate)))
             0 io_ErrUnexpectedEOF).
    reflexivity.
  - apply (proj1 (proj2 (proj2 (failing_decodes_and_position (NewBuffer [x01; x02; x03])
                           ltac:(unfold inBounds; vm_compute; split; discriminate))))
             0 io_ErrUnexpectedEOF).
    reflexivity.
  - apply (proj2 (proj2 (proj2 (failing_decodes_and_position (NewBuffer [x05; x01])
                           ltac:(unfold inBounds; vm_compute; split; discriminate))))
             false 5 (mkBuffer [x05; x01] 1) [] io_ErrUnexpectedEOF);
      reflexivity.
Defined.

(** * Further properties of the decoders and iterators *)

Import tables message.

(** ** Reading a known prefix *)

Lemma remaining_app cb pre rest :
  inBounds cb -> remaining cb = pre ++ rest ->
  index cb + len pre <= len (buf cb) /\
  remaining (setIndex cb (index cb + len pre)) = rest /\
  slice (buf cb) (index cb) (index cb + len pre) = pre /\
  (forall j, (j < length pre)%nat ->
     byteAt (buf cb) (index cb + Z.of_nat j) = Z.of_N (Byte.to_N (nth j pre x00))).
Proof.
  unfold inBounds, remaining, sliceFrom, slice, byteAt, len. cbn [buf index setIndex].
  intros Hi Hrem.
  assert (Hlen : (Z.to_nat (index cb) + length pre <= length (buf cb))%nat).
  { apply (f_equal (@length byte)) in Hrem.
    rewrite length_skipn, length_app in Hrem. lia. }
  split; [lia|]. split; [|split].
  - replace (Z.to_nat (index cb + Z.of_nat (length pre)))
      with (length pre + Z.to_nat (index cb))%nat by lia.
    rewrite <- skipn_skipn, Hrem, skipn_app, skipn_all, Nat.sub_diag. reflexivity.
  - replace (Z.to_nat (index cb + Z.of_nat (length pre) - index cb))
      with (length pre + 0)%nat by lia.
    rewrite Hrem, firstn_app_2. cbn. apply app_nil_r.
  - intros j Hj.
    replace (Z.to_nat (index cb + Z.of_nat j)) with (Z.to_nat (index cb) + j)%nat by lia.
    rewrite <- nth_skipn, Hrem, app_nth1 by exact Hj. reflexivity.
Qed.

(** ** Bit operations on disjoint ranges are sums *)

Lemma lor_shiftl_add a b k :
  0 <= k -> 0 <= a < 2 ^ k -> Z.lor a (Z.shiftl b k) = a + b * 2 ^ k.
Proof.
  intros Hk Ha.
  assert (Hdisj : Z.land a (Z.shiftl b k) = 0).
  { rewrite <- (Z.mod_small a (2 ^ k)) by lia.
    rewrite <- Z.land_ones, <- Z.land_assoc by lia.
    rewrite (Z.land_comm (Z.ones k)), Z.land_ones, Z.shiftl_mul_pow2 by lia.
    rewrite Z.mod_mul by lia. apply Z.land_0_r. }
  rewrite <- (Z.lxor_lor _ _ Hdisj), <- (Z.add_nocarry_lxor _ _ Hdisj).
  rewrite Z.shiftl_mul_pow2 by lia. reflexivity.
Qed.

Lemma uint64_shiftl_byte b k :
  0 <= b < 256 -> 0 <= k <= 56 -> uint64 (Z.shiftl b k) = Z.shiftl b k.
Proof.
  intros Hb Hk. unfold uint64. apply Z.mod_small.
  rewrite Z.shiftl_mul_pow2 by lia. split; [nia|].
  apply Z.lt_le_trans with (2 ^ 8 * 2 ^ k).
  - assert (0 < 2 ^ k) by (apply Z.pow_pos_nonneg; lia).
    change (2 ^ 8) with 256. nia.
  - rewrite <- Z.pow_add_r by lia. apply Z.pow_le_mono_r; lia.
Qed.

(** ** Fixed-width decoders: value and bounds *)

Lemma DecodeFixed32_value cb :
  inBounds cb -> goSlice (buf cb) -> index cb + 4 <= len (buf cb) ->
  DecodeFixed32 cb =
    ((byteAt (buf cb) (index cb)
      + 2 ^ 8 * byteAt (buf cb) (index cb + 1)
      + 2 ^ 16 * byteAt (buf cb) (index cb + 2)
      + 2 ^ 24 * byteAt (buf cb) (index cb + 3), None),
     setIndex cb (index cb + 4)).
Proof.
  unfold inBounds, goSlice, MaxInt. intros Hin Hgo Hle. unfold DecodeFixed32.
  rewrite int64_small by lia.
  destruct (Z.ltb_spec (index cb + 4) 0); [lia|].
  rewrite Z.gtb_ltb. destruct (Z.ltb_spec (len (buf cb)) (index cb + 4)); [lia|].
  cbn [orb].
  replace (index cb + 4 - 4) with (index cb) by lia.
  replace (index cb + 4 - 3) with (index cb + 1) by lia.
  replace (index cb + 4 - 2) with (index cb + 2) by lia.
  replace (index cb + 4 - 1) with (index cb + 3) by lia.
  pose proof (byteAt_range (buf cb) (index cb)) as Hb0.
  pose proof (byteAt_range (buf cb) (index cb + 1)) as Hb1.
  pose proof (byteAt_range (buf cb) (index cb + 2)) as Hb2.
  pose proof (byteAt_range (buf cb) (index cb + 3)) as Hb3.
  rewrite !uint64_shiftl_byte by lia.
  rewrite (lor_shiftl_add (byteAt _ _)) by lia.
  rewrite !(lor_shiftl_add (_ + _)) by lia. f_equal. f_equal. lia.
Qed.

Lemma DecodeFixed64_value cb :
  inBounds cb -> goSlice (buf cb) -> index cb + 8 <= len (buf cb) ->
  DecodeFixed64 cb =
    ((byteAt (buf cb) (index cb)
      + 2 ^ 8 * byteAt (buf cb) (index cb + 1)
      + 2 ^ 16 * byteAt (buf cb) (index cb + 2)
      + 2 ^ 24 * byteAt (buf cb) (index cb + 3)
      + 2 ^ 32 * byteAt (buf cb) (index cb + 4)
      + 2 ^ 40 * byteAt (buf cb) (index cb + 5)
      + 2 ^ 48 * byteAt (buf cb) (index cb + 6)
      + 2 ^ 56 * byteAt (buf cb) (index cb + 7), None),
     setIndex cb (index cb + 8)).
Proof.
  unfold inBounds, goSlice, MaxInt. intros Hin Hgo Hle. unfold DecodeFixed64.
  rewrite int64_small by lia.
  destruct (Z.ltb_spec (index cb + 8) 0); [lia|].
  rewrite Z.gtb_ltb. destruct (Z.ltb_spec (len (buf cb)) (index cb + 8)); [lia|].
  cbn [orb].
  replace (index cb + 8 - 8) with (index cb) by lia.
  replace (index cb + 8 - 7) with (index cb + 1) by lia.
  replace (index cb + 8 - 6) with (index cb + 2) by lia.
  replace (index cb + 8 - 5) with (index cb + 3) by lia.
  replace (index cb + 8 - 4) with (index cb + 4) by lia.
  replace (index cb + 8 - 3) with (index cb + 5) by lia.
  replace (index cb + 8 - 2) with (index cb + 6) by lia.
  replace (index cb + 8 - 1) with (index cb + 7) by lia.
  pose proof (byteAt_range (buf cb) (index cb)) as Hb0.
  pose proof (byteAt_range (buf cb) (index cb + 1)) as Hb1.
  pose proof (byteAt_range (buf cb) (index cb + 2)) as Hb2.
  pose proof (byteAt_range (buf cb) (index cb + 3)) as Hb3.
  pose proof (byteAt_range (buf cb) (index cb + 4)) as Hb4.
  pose proof (byteAt_range (buf cb) (index cb + 5)) as Hb5.
  pose proof (byteAt_range (buf cb) (index cb + 6)) as Hb6.
  pose proof (byteAt_range (buf cb) (index cb + 7)) as Hb7.
  rewrite !uint64_shiftl_byte by lia.
  rewrite (lor_shiftl_add (byteAt _ _)) by lia.
  rewrite !(lor_shiftl_add (_ + _)) by lia. f_equal. f_equal. lia.
Qed.

Lemma DecodeFixed_short cb :
  inBounds cb -> goSlice (buf cb) ->
  (len (buf cb) < index cb + 4 ->
   DecodeFixed32 cb = ((0, Some io_ErrUnexpectedEOF), cb)) /\
  (len (buf cb) < index cb + 8 ->
   DecodeFixed64 cb = ((0, Some io_ErrUnexpectedEOF), cb)).
Proof.
  unfold inBounds, goSlice, MaxInt. intros Hin Hgo.
  split; intros Hlt; [unfold DecodeFixed32 | unfold DecodeFixed64].
  - destruct (Z.lt_ge_cases (index cb + 4) (2 ^ 63)).
    + rewrite int64_small by lia. zcases; try reflexivity; lia.
    + rewrite int64_high by lia. zcases; try reflexivity; lia.
  - destruct (Z.lt_ge_cases (index cb + 8) (2 ^ 63)).
    + rewrite int64_small by lia. zcases; try reflexivity; lia.
    + rewrite int64_high by lia. zcases; try reflexivity; lia.
Qed.

(** ** Little-endian bytes *)

Lemma le_bytes_length k : forall x, length (le_bytes k x) = k.
Proof. induction k as [|k IH]; intros x; cbn; [reflexivity | now rewrite IH]. Qed.

Lemma DecodeFixed32_EncodeFixed32 x cb rest :
  0 <= x < 2 ^ 32 -> inBounds cb -> goSlice (buf cb) ->
  remaining cb = EncodeFixed32 x ++ rest ->
  DecodeFixed32 cb = ((x, None), setIndex cb (index cb + 4)).
Proof.
  intros Hx Hin Hgo Hrem.
  destruct (remaining_app cb _ _ Hin Hrem) as (Hle & _ & _ & Hb).
  change (len (EncodeFixed32 x)) with 4 in Hle.
  rewrite DecodeFixed32_value by assumption.
  pose proof (Hb 0%nat ltac:(cbn; lia)) as H0.
  pose proof (Hb 1%nat ltac:(cbn; lia)) as H1.
  pose proof (Hb 2%nat ltac:(cbn; lia)) as H2.
  pose proof (Hb 3%nat ltac:(cbn; lia)) as H3.
  cbn [Z.of_nat Pos.of_succ_nat Pos.succ nth EncodeFixed32 le_bytes] in H0, H1, H2, H3.
  rewrite Z.add_0_r in H0. rewrite H0, H1, H2, H3.
  rewrite !byte_of_Z_value by (apply Z.mod_pos_bound; lia).
  f_equal. f_equal. Z.div_mod_to_equations. lia.
Qed.

Lemma DecodeFixed64_EncodeFixed64 x cb rest :
  0 <= x < 2 ^ 64 -> inBounds cb -> goSlice (buf cb) ->
  remaining cb = EncodeFixed64 x ++ rest ->
  DecodeFixed64 cb = ((x, None), setIndex cb (index cb + 8)).
Proof.
  intros Hx Hin Hgo Hrem.
  destruct (remaining_app cb _ _ Hin Hrem) as (Hle & _ & _ & Hb).
  change (len (EncodeFixed64 x)) with 8 in Hle.
  rewrite DecodeFixed64_value by assumption.
  pose proof (Hb 0%nat ltac:(cbn; lia)) as H0.
  pose proof (Hb 1%nat ltac:(cbn; lia)) as H1.
  pose proof (Hb 2%nat ltac:(cbn; lia)) as H2.
  pose proof (Hb 3%nat ltac:(cbn; lia)) as H3.
  pose proof (Hb 4%nat ltac:(cbn; lia)) as H4.
  pose proof (Hb 5%nat ltac:(cbn; lia)) as H5.
  pose proof (Hb 6%nat ltac:(cbn; lia)) as H6.
  pose proof (Hb 7%nat ltac:(cbn; lia)) as H7.
  cbn [Z.of_nat Pos.of_succ_nat Pos.succ nth EncodeFixed64 le_bytes]
    in H0, H1, H2, H3, H4, H5, H6, H7.
  rewrite Z.add_0_r in H0. rewrite H0, H1, H2, H3, H4, H5, H6, H7.
  rewrite !byte_of_Z_value by (apply Z.mod_pos_bound; lia).
  f_equal. f_equal. Z.div_mod_to_equations. lia.
Qed.

(** ** DecodeVarint and the varint scan of the group skipper *)

Lemma uint64_lor a b : uint64 (Z.lor a b) = Z.lor (uint64 a) (uint64 b).
Proof.
  unfold uint64. rewrite <- !Z.land_ones by lia. apply Z.land_lor_distr_l.
Qed.

Lemma byte_low7 b : 0 <= b -> Z.land b 127 = b mod 128.
Proof.
  intros _. change 127 with (Z.ones 7). rewrite Z.land_ones by lia. reflexivity.
Qed.

Lemma slice_cons bs i hi :
  0 <= i < len bs -> i < hi ->
  slice bs i hi = nth (Z.to_nat i) bs x00 :: slice bs (i + 1) hi.
Proof.
  unfold slice, len. intros Hi Hhi.
  replace (Z.to_nat (hi - i)) with (S (Z.to_nat (hi - (i + 1)))) by lia.
  replace (Z.to_nat (i + 1)) with (S (Z.to_nat i)) by lia.
  assert (Hn : (Z.to_nat i < length bs)%nat) by lia.
  revert Hn. generalize (Z.to_nat i) as n. generalize (Z.to_nat (hi - (i + 1))) as m.
  clear. intros m n. revert bs. induction n as [|n IH]; intros [|b bs] Hn;
    cbn [length] in Hn; try lia.
  - reflexivity.
  - cbn [skipn nth]. apply IH. lia.
Qed.

Lemma slice_empty bs i : slice bs i i = [].
Proof. unfold slice. now rewrite Z.sub_diag. Qed.

Lemma varint_value_nonneg bs : 0 <= varint_value bs.
Proof.
  induction bs as [|b bs IH]; cbn [varint_value]; [lia|].
  pose proof (Z.mod_pos_bound (Z.of_N (Byte.to_N b)) 128). lia.
Qed.

(** The two loops walk the same bytes: where the scan stops at the byte
    [q], the decoder stops after it with the base-128 value of the bytes
    read; where the scan fails, the decoder fails with the same error. *)
Lemma varint_loops_agree k : forall cb shift i x,
  shift = 70 - 7 * Z.of_nat k -> 0 <= shift -> 0 <= i ->
  match skipVarint_loop k (buf cb) (i + Z.of_nat k) i with
  | inr q =>
      DecodeVarint_loop k cb (len (buf cb)) shift i x =
        ((Z.lor x (uint64 (Z.shiftl (varint_value (slice (buf cb) i (q + 1))) shift)),
          None), setIndex cb (q + 1))
  | inl e => exists v, DecodeVarint_loop k cb (len (buf cb)) shift i x = ((v, Some e), cb)
  end.
Proof.
  induction k as [|k IH]; intros cb shift i x Hs Hs0 Hi.
  - cbn [skipVarint_loop DecodeVarint_loop]. rewrite Z.geb_leb.
    destruct (Z.leb_spec (i + Z.of_nat 0) i); [|lia].
    destruct (Z.ltb_spec shift 64); [lia|]. eexists. reflexivity.
  - cbn [skipVarint_loop DecodeVarint_loop]. rewrite !Z.geb_leb.
    destruct (Z.leb_spec (i + Z.of_nat (S k)) i); [lia|].
    destruct (Z.ltb_spec shift 64); [|lia].
    destruct (Z.leb_spec (len (buf cb)) i); [eexists; reflexivity|].
    unfold byteAt at 1. rewrite high_bit_clear. fold (byteAt (buf cb) i).
    pose proof (byteAt_range (buf cb) i) as Hb.
    destruct (Z.ltb_spec (byteAt (buf cb) i) 128) as [Hlo|Hhi].
    + rewrite slice_cons, slice_empty by lia. cbn [varint_value].
      fold (byteAt (buf cb) i). rewrite byte_low7 by lia.
      rewrite Z.mul_0_r, Z.add_0_r. reflexivity.
    + specialize (IH cb (shift + 7) (i + 1)
                    (Z.lor x (uint64 (Z.shiftl (Z.land (byteAt (buf cb) i) 127) shift)))
                    ltac:(lia) ltac:(lia) ltac:(lia)).
      replace (i + 1 + Z.of_nat k) with (i + Z.of_nat (S k)) in IH by lia.
      destruct (skipVarint_loop k (buf cb) (i + Z.of_nat (S k)) (i + 1)) as [e|q] eqn:Hscan;
        [exact IH|].
      apply skipVarint_loop_inr in Hscan as (Hq & Hl & _).
      rewrite IH. f_equal. f_equal.
      rewrite (slice_cons (buf cb) i (q + 1)) by lia. cbn [varint_value].
      fold (byteAt (buf cb) i). rewrite byte_low7 by lia.
      pose proof (Z.mod_pos_bound (byteAt (buf cb) i) 128 ltac:(lia)) as Hm.
      set (V := varint_value (slice (buf cb) (i + 1) (q + 1))).
      rewrite <- Z.lor_assoc. f_equal. rewrite <- uint64_lor. f_equal.
      replace (shift + 7) with (7 + shift) by lia.
      rewrite <- (Z.shiftl_shiftl V 7 shift) by lia.
      rewrite <- Z.shiftl_lor. f_equal.
      rewrite lor_shiftl_add by (change (2 ^ 7) with 128; lia).
      change (2 ^ 7) with 128. lia.
Qed.

Lemma DecodeVarint_scan cb :
  0 <= index cb ->
  match skipVarint_loop 10 (buf cb) (index cb + 10) (index cb) with
  | inr q =>
      DecodeVarint cb =
        ((uint64 (varint_value (slice (buf cb) (index cb) (q + 1))), None),
         setIndex cb (q + 1))
  | inl e => exists v, DecodeVarint cb = ((v, Some e), cb)
  end.
Proof.
  intros Hi. unfold DecodeVarint.
  pose proof (varint_loops_agree 10 cb 0 (index cb) 0 eq_refl ltac:(lia) Hi) as H.
  change (Z.of_nat 10) with 10 in H.
  destruct (skipVarint_loop 10 (buf cb) (index cb + 10) (index cb)); [exact H|].
  rewrite H, Z.shiftl_0_r, Z.lor_0_l. reflexivity.
Qed.

(** X1. [DecodeVarint] succeeds exactly when one of the next ten bytes has
    its top bit clear: it then stops right after the first such byte and
    returns the little-endian base-128 value of the bytes read, reduced
    modulo 2^64 (so the bits a tenth byte carries beyond bit 63 are
    dropped, and padded encodings are accepted). *)
Theorem DecodeVarint_first_terminator cb :
  inBounds cb ->
  (forall q,
     index cb <= q < index cb + 10 -> q < len (buf cb) ->
     (forall j, index cb <= j < q -> 128 <= byteAt (buf cb) j) ->
     byteAt (buf cb) q < 128 ->
     DecodeVarint cb =
       ((uint64 (varint_value (slice (buf cb) (index cb) (q + 1))), None),
        setIndex cb (q + 1))) /\
  (forall x cb',
     DecodeVarint cb = ((x, None), cb') ->
     exists q,
       index cb <= q < index cb + 10 /\ q < len (buf cb) /\
       (forall j, index cb <= j < q -> 128 <= byteAt (buf cb) j) /\
       byteAt (buf cb) q < 128 /\
       cb' = setIndex cb (q + 1) /\
       x = uint64 (varint_value (slice (buf cb) (index cb) (q + 1)))).
Proof.
  intros Hin. pose proof (DecodeVarint_scan cb (proj1 Hin)) as Hscan. split.
  - intros q Hq Hl Hall Hlast.
    assert (Hs : skipVarint_loop 10 (buf cb) (index cb + 10) (index cb) = inr q)
      by (apply skipVarint_loop_finds; try assumption; cbn; lia).
    rewrite Hs in Hscan. exact Hscan.
  - intros x cb' Hrun.
    destruct (skipVarint_loop 10 (buf cb) (index cb + 10) (index cb)) as [e|q] eqn:Hs.
    + destruct Hscan as [v Hv]. congruence.
    + apply skipVarint_loop_inr in Hs as (Hq & Hl & Hall & Hlast).
      rewrite Hscan in Hrun. injection Hrun as <- <-.
      exists q. repeat split; try assumption; lia.
Qed.

Lemma DecodeVarint_first_terminator_witness :
  DecodeVarint (mkBuffer [x08; x80; x80; x00; x01] 1)
  = ((uint64 (varint_value (slice [x08; x80; x80; x00; x01] 1 (3 + 1))), None),
     mkBuffer [x08; x80; x80; x00; x01] 4) /\
  exists q, 1 <= q < 1 + 10 /\ mkBuffer [x08; x80; x80; x00; x01] 4
                              = setIndex (mkBuffer [x08; x80; x80; x00; x01] 1) (q + 1).
Proof.
  pose proof (DecodeVarint_first_terminator (mkBuffer [x08; x80; x80; x00; x01] 1)
                ltac:(unfold inBounds; vm_compute; split; discriminate)) as [Hfind Hinv].
  split.
  - apply (Hfind 3).
    + cbn. lia.
    + vm_compute. reflexivity.
    + intros j Hj. cbn [index buf] in Hj.
      assert (Hc : j = 1 \/ j = 2) by lia. destruct Hc as [-> | ->]; vm_compute; discriminate.
    + vm_compute. reflexivity.
  - destruct (Hinv 0 (mkBuffer [x08; x80; x80; x00; x01] 4) eq_refl)
      as (q & Hq & _ & _ & _ & Hcb & _).
    exists q. split; [exact Hq | exact Hcb].
Defined.

Example DecodeVarint_padded_zero :
  DecodeVarint (NewBuffer [x80; x80; x00]) = ((0, None), mkBuffer [x80; x80; x00] 3).
Proof. reflexivity. Qed.

Example DecodeVarint_tenth_byte_truncated :
  DecodeVarint (NewBuffer [xff; xff; xff; xff; xff; xff; xff; xff; xff; x7f])
  = ((2 ^ 64 - 1, None),
     mkBuffer [xff; xff; xff; xff; xff; xff; xff; xff; xff; x7f] 10).
Proof. reflexivity. Qed.

(** X2. Where the group skipper skips a varint value it stops where
    [DecodeVarint] stops on the same bytes, and where it fails
    [DecodeVarint] fails with the same error. *)
Theorem group_scan_varint_agrees_with_DecodeVarint cb :
  inBounds cb -> index cb + 10 <= MaxInt ->
  match skipVarint_loop 10 (buf cb) (int64 (index cb + 10)) (index cb) with
  | inr q => exists x, DecodeVarint cb = ((x, None), setIndex cb (q + 1))
  | inl e => exists x, DecodeVarint cb = ((x, Some e), cb)
  end.
Proof.
  unfold inBounds, MaxInt. intros Hin Hmax.
  rewrite int64_small by lia.
  pose proof (DecodeVarint_scan cb (proj1 Hin)) as Hscan.
  destruct (skipVarint_loop 10 (buf cb) (index cb + 10) (index cb));
    [exact Hscan | eexists; exact Hscan].
Qed.

Lemma group_scan_varint_agrees_with_DecodeVarint_witness :
  exists x, DecodeVarint (mkBuffer [x08; xac; x02; x0c] 1)
            = ((x, None), setIndex (mkBuffer [x08; xac; x02; x0c] 1) (2 + 1)).
Proof.
  exact (group_scan_varint_agrees_with_DecodeVarint (mkBuffer [x08; xac; x02; x0c] 1)
           ltac:(unfold inBounds; vm_compute; split; discriminate)
           ltac:(vm_compute; discriminate)).
Defined.

(** X3. [DecodeFixed32] reads the next four bytes as a little-endian
    number and moves past them; with fewer than four bytes left it fails
    with UnexpectedEndOfInput, returns 0 and does not move. *)
Theorem DecodeFixed32_little_endian cb :
  inBounds cb -> goSlice (buf cb) ->
  (index cb + 4 <= len (buf cb) ->
   DecodeFixed32 cb =
     ((byteAt (buf cb) (index cb)
       + 2 ^ 8 * byteAt (buf cb) (index cb + 1)
       + 2 ^ 16 * byteAt (buf cb) (index cb + 2)
       + 2 ^ 24 * byteAt (buf cb) (index cb + 3), None),
      setIndex cb (index cb + 4))) /\
  (len (buf cb) < index cb + 4 ->
   DecodeFixed32 cb = ((0, Some io_ErrUnexpectedEOF), cb)).
Proof.
  intros Hin Hgo. split.
  - apply DecodeFixed32_value; assumption.
  - apply (DecodeFixed_short cb Hin Hgo).
Qed.

Lemma DecodeFixed32_little_endian_witness :
  DecodeFixed32 (mkBuffer [x08; x78; x56; x34; x12] 1)
    = ((byteAt [x08; x78; x56; x34; x12] 1
        + 2 ^ 8 * byteAt [x08; x78; x56; x34; x12] (1 + 1)
        + 2 ^ 16 * byteAt [x08; x78; x56; x34; x12] (1 + 2)
        + 2 ^ 24 * byteAt [x08; x78; x56; x34; x12] (1 + 3), None),
       mkBuffer [x08; x78; x56; x34; x12] 5) /\
  DecodeFixed32 (mkBuffer [x08; x78; x56; x34; x12] 2)
    = ((0, Some io_ErrUnexpectedEOF), mkBuffer [x08; x78; x56; x34; x12] 2).
Proof.
  split.
  - apply (proj1 (DecodeFixed32_little_endian (mkBuffer [x08; x78; x56; x34; x12] 1)
                    ltac:(unfold inBounds; vm_compute; split; discriminate)
                    ltac:(vm_compute; discriminate))).
    vm_compute. discriminate.
  - apply (proj2 (DecodeFixed32_little_endian (mkBuffer [x08; x78; x56; x34; x12] 2)
                    ltac:(unfold inBounds; vm_compute; split; discriminate)
                    ltac:(vm_compute; discriminate))).
    vm_compute. reflexivity.
Defined.

(** X4. [DecodeFixed64] reads the next eight bytes as a little-endian
    number and moves past them; with fewer than eight bytes left it fails
    with UnexpectedEndOfInput, returns 0 and does not move. *)
Theorem DecodeFixed64_little_endian cb :
  inBounds cb -> goSlice (buf cb) ->
  (index cb + 8 <= len (buf cb) ->
   DecodeFixed64 cb =
     ((byteAt (buf cb) (index cb)
       + 2 ^ 8 * byteAt (buf cb) (index cb + 1)
       + 2 ^ 16 * byteAt (buf cb) (index cb + 2)
       + 2 ^ 24 * byteAt (buf cb) (index cb + 3)
       + 2 ^ 32 * byteAt (buf cb) (index cb + 4)
       + 2 ^ 40 * byteAt (buf cb) (index cb + 5)
       + 2 ^ 48 * byteAt (buf cb) (index cb + 6)
       + 2 ^ 56 * byteAt (buf cb) (index cb + 7), None),
      setIndex cb (index cb + 8))) /\
  (len (buf cb) < index cb + 8 ->
   DecodeFixed64 cb = ((0, Some io_ErrUnexpectedEOF), cb)).
Proof.
  intros Hin Hgo. split.
  - apply DecodeFixed64_value; assumption.
  - apply (DecodeFixed_short cb Hin Hgo).
Qed.

Lemma DecodeFixed64_little_endian_witness :
  fst (DecodeFixed64 (NewBuffer [x01; x00; x00; x00; x00; x00; x00; x80]))
    = (2 ^ 63 + 1, None) /\
  DecodeFixed64 (NewBuffer [x01; x02; x03; x04; x05; x06; x07])
    = ((0, Some io_ErrUnexpectedEOF), NewBuffer [x01; x02; x03; x04; x05; x06; x07]).
Proof.
  split.
  - rewrite (proj1 (DecodeFixed64_little_endian
                      (NewBuffer [x01; x00; x00; x00; x00; x00; x00; x80])
                      ltac:(unfold inBounds; vm_compute; split; discriminate)
                      ltac:(vm_compute; discriminate))).
    + reflexivity.
    + vm_compute. discriminate.
  - apply (proj2 (DecodeFixed64_little_endian
                    (NewBuffer [x01; x02; x03; x04; x05; x06; x07])
                    ltac:(unfold inBounds; vm_compute; split; discriminate)
                    ltac:(vm_compute; discriminate))).
    vm_compute. reflexivity.
Defined.

(** X5. The fixed-width decoders invert the little-endian encodings: on a
    buffer whose remaining bytes begin with the four (eight) bytes of [x],
    least significant first, they return [x] and move past them. *)
Theorem DecodeFixed_roundtrip cb rest :
  inBounds cb -> goSlice (buf cb) ->
  (forall x, 0 <= x < 2 ^ 32 -> remaining cb = EncodeFixed32 x ++ rest ->
     DecodeFixed32 cb = ((x, None), setIndex cb (index cb + 4))) /\
  (forall x, 0 <= x < 2 ^ 64 -> remaining cb = EncodeFixed64 x ++ rest ->
     DecodeFixed64 cb = ((x, None), setIndex cb (index cb + 8))).
Proof.
  intros Hin Hgo. split; intros x Hx Hrem.
  - apply (DecodeFixed32_EncodeFixed32 x cb rest); assumption.
  - apply (DecodeFixed64_EncodeFixed64 x cb rest); assumption.
Qed.

Lemma DecodeFixed_roundtrip_witness :
  DecodeFixed32 (NewBuffer (EncodeFixed32 (2 ^ 32 - 1) ++ [x01]))
    = ((2 ^ 32 - 1, None), mkBuffer (EncodeFixed32 (2 ^ 32 - 1) ++ [x01]) 4) /\
  DecodeFixed64 (NewBuffer (EncodeFixed64 (2 ^ 64 - 1) ++ [x01]))
    = ((2 ^ 64 - 1, None), mkBuffer (EncodeFixed64 (2 ^ 64 - 1) ++ [x01]) 8).
Proof.
  split.
  - apply (proj1 (DecodeFixed_roundtrip (NewBuffer (EncodeFixed32 (2 ^ 32 - 1) ++ [x01])) [x01]
                    ltac:(unfold inBounds; vm_compute; split; discriminate)
                    ltac:(vm_compute; discriminate)) (2 ^ 32 - 1)).
    + lia.
    + reflexivity.
  - apply (proj2 (DecodeFixed_roundtrip (NewBuffer (EncodeFixed64 (2 ^ 64 - 1) ++ [x01])) [x01]
                    ltac:(unfold inBounds; vm_compute; split; discriminate)
                    ltac:(vm_compute; discriminate)) (2 ^ 64 - 1)).
    + lia.
    + reflexivity.
Defined.

(** ** Tags *)

(** X6. What [DecodeTagAndWireType] can return. On success the tag is
    between 0 and the largest [int32] (0 included), the wire type between
    0 and 7, and the varint read is [8 * tag + wireType]. On failure the
    tag is 0 and the error is UnexpectedEndOfInput or Overflow, with wire
    type 0 and the buffer as at entry, or the out-of-range error, with the
    wire type decoded and the buffer past the varint. The error is never
    [io.EOF]. *)
Theorem DecodeTagAndWireType_results cb tag wireType err cb' :
  inBounds cb ->
  DecodeTagAndWireType cb = ((tag, wireType, err), cb') ->
  match err with
  | None =>
      0 <= tag <= MaxInt32 /\ 0 <= wireType <= 7 /\
      DecodeVarint cb = ((8 * tag + wireType, None), cb')
  | Some e =>
      tag = 0 /\ e <> io_EOF /\
      (((e = io_ErrUnexpectedEOF \/ e = ErrOverflow) /\ wireType = 0 /\ cb' = cb) \/
       (exists v, e = ErrTagOutOfRange v /\ MaxInt32 < v /\ 0 <= wireType <= 7 /\
                  DecodeVarint cb = ((8 * v + wireType, None), cb')))
  end.
Proof.
  intros Hin. unfold DecodeTagAndWireType.
  pose proof (DecodeVarint_range cb) as Hrg.
  destruct (DecodeVarint cb) as [[v e] cb1] eqn:Hdec. cbn [fst] in Hrg.
  destruct e as [e|].
  - intros H'. injection H' as <- <- <- <-.
    pose proof (DecodeVarint_loop_error_kind _ _ _ _ _ _ _ _ _ Hdec) as Hk.
    split; [reflexivity|]. split; [destruct Hk; subst; discriminate|].
    left. repeat split; try assumption. eapply DecodeVarint_error, Hdec.
  - assert (Hv : v = 8 * Z.shiftr v 3 + Z.land v 7 /\ 0 <= Z.land v 7 <= 7 /\
                 0 <= Z.shiftr v 3).
    { assert (Hland : Z.land v 7 = v mod 8)
        by (change 7 with (Z.ones 3); now rewrite Z.land_ones by lia).
      rewrite Hland, Z.shiftr_div_pow2 by lia.
      change (2 ^ 3) with 8. Z.div_mod_to_equations. lia. }
    destruct Hv as (Hv & Hw & Hs).
    rewrite Z.gtb_ltb. unfold MaxInt32 in *.
    destruct (Z.ltb_spec (2 ^ 31 - 1) (Z.shiftr v 3)); intros H';
      injection H' as <- <- <- <-.
    + split; [reflexivity|]. split; [discriminate|]. right.
      exists (Z.shiftr v 3). repeat split; try lia. f_equal. f_equal. exact Hv.
    + unfold int32. rewrite Z.mod_small by lia.
      replace (Z.shiftr v 3 + 2 ^ 31 - 2 ^ 31) with (Z.shiftr v 3) by lia.
      repeat split; try lia. f_equal. f_equal. exact Hv.
Qed.

Lemma DecodeTagAndWireType_results_witness :
  0 <= 0 <= MaxInt32 /\ 0 <= 7 <= 7 /\
  DecodeVarint (NewBuffer [x07; x01]) = ((8 * 0 + 7, None), mkBuffer [x07; x01] 1).
Proof.
  exact (DecodeTagAndWireType_results (NewBuffer [x07; x01]) 0 7 None (mkBuffer [x07; x01] 1)
           ltac:(unfold inBounds; vm_compute; split; discriminate) eq_refl).
Defined.

(** ** Zig-zag, the other way round *)

Lemma DecodeZigZag64_closed v : 0 <= v < 2 ^ 64 ->
  DecodeZigZag64 v = if Z.even v then v / 2 else - (v / 2) - 1.
Proof.
  intros Hv. unfold DecodeZigZag64.
  rewrite land_1, Z.shiftr_div_pow2 by lia. change (2 ^ 1) with 2.
  rewrite (Zmod_even v). destruct (Z.even v).
  - change (uint64 (Z.shiftr (int64 (Z.shiftl (int64 0) 63)) 63)) with 0.
    rewrite Z.lxor_0_r. apply int64_small. Z.div_mod_to_equations. lia.
  - change (uint64 (Z.shiftr (int64 (Z.shiftl (int64 1) 63)) 63)) with (2 ^ 64 - 1).
    rewrite lxor_all_ones by (try lia; Z.div_mod_to_equations; lia).
    rewrite int64_high by (Z.div_mod_to_equations; lia). lia.
Qed.

Lemma DecodeZigZag32_closed v : 0 <= v < 2 ^ 32 ->
  DecodeZigZag32 v = if Z.even v then v / 2 else - (v / 2) - 1.
Proof.
  intros Hv. unfold DecodeZigZag32.
  assert (Hu : uint32 v = v) by (unfold uint32; apply Z.mod_small; lia).
  rewrite Hu, land_1, Z.shiftr_div_pow2 by lia. change (2 ^ 1) with 2.
  rewrite (Zmod_even v). destruct (Z.even v).
  - change (uint32 (Z.shiftr (int32 (Z.shiftl (int32 0) 31)) 31)) with 0.
    rewrite Z.lxor_0_r. unfold int32.
    rewrite Z.mod_small by (Z.div_mod_to_equations; lia). lia.
  - change (uint32 (Z.shiftr (int32 (Z.shiftl (int32 1) 31)) 31)) with (2 ^ 32 - 1).
    rewrite lxor_all_ones by (try lia; Z.div_mod_to_equations; lia).
    unfold int32.
    replace (2 ^ 32 - 1 - v / 2 + 2 ^ 31) with (2 ^ 31 - 1 - v / 2 + 1 * 2 ^ 32) by lia.
    rewrite Z.mod_add by lia.
    rewrite Z.mod_small by (Z.div_mod_to_equations; lia). lia.
Qed.

(** X7. The zig-zag decoders send even wire values [v] to [v / 2] and odd
    ones to [-(v / 2) - 1], stay within the signed range of their width,
    and are inverted by the zig-zag mapping: with C7, a bijection between
    the unsigned and the signed values of the width. [DecodeZigZag32]
    looks only at the low 32 bits of its argument. *)
Theorem DecodeZigZag_inverse :
  (forall v, 0 <= v < 2 ^ 32 ->
     DecodeZigZag32 v = (if Z.even v then v / 2 else - (v / 2) - 1) /\
     - 2 ^ 31 <= DecodeZigZag32 v < 2 ^ 31 /\
     zigzag32 (DecodeZigZag32 v) = v) /\
  (forall v, 0 <= v < 2 ^ 64 ->
     DecodeZigZag64 v = (if Z.even v then v / 2 else - (v / 2) - 1) /\
     - 2 ^ 63 <= DecodeZigZag64 v < 2 ^ 63 /\
     zigzag64 (DecodeZigZag64 v) = v) /\
  (forall v, DecodeZigZag32 v = DecodeZigZag32 (v mod 2 ^ 32)).
Proof.
  split; [|split].
  - intros v Hv. rewrite DecodeZigZag32_closed by exact Hv.
    pose proof (Zmod_even v) as He. unfold zigzag32.
    destruct (Z.even v); (split; [reflexivity|]);
      (split; [Z.div_mod_to_equations; lia|]);
      rewrite zigzag_value by (try lia; Z.div_mod_to_equations; lia).
    + destruct (Z.ltb_spec (v / 2) 0); [Z.div_mod_to_equations; lia|].
      unfold uint32. rewrite Z.mod_small; Z.div_mod_to_equations; lia.
    + destruct (Z.ltb_spec (- (v / 2) - 1) 0); [|Z.div_mod_to_equations; lia].
      unfold uint32. rewrite Z.mod_small; Z.div_mod_to_equations; lia.
  - intros v Hv. rewrite DecodeZigZag64_closed by exact Hv.
    pose proof (Zmod_even v) as He. unfold zigzag64.
    destruct (Z.even v); (split; [reflexivity|]);
      (split; [Z.div_mod_to_equations; lia|]);
      rewrite zigzag_value by (try lia; Z.div_mod_to_equations; lia).
    + destruct (Z.ltb_spec (v / 2) 0); [Z.div_mod_to_equations; lia|].
      unfold uint64. rewrite Z.mod_small; Z.div_mod_to_equations; lia.
    + destruct (Z.ltb_spec (- (v / 2) - 1) 0); [|Z.div_mod_to_equations; lia].
      unfold uint64. rewrite Z.mod_small; Z.div_mod_to_equations; lia.
  - intros v. unfold DecodeZigZag32, uint32.
    rewrite Z.mod_mod by lia. rewrite !land_1.
    replace ((v mod 2 ^ 32) mod 2) with (v mod 2); [reflexivity|].
    Z.div_mod_to_equations. lia.
Qed.

Lemma DecodeZigZag_inverse_witness :
  zigzag32 (DecodeZigZag32 (2 ^ 32 - 1)) = 2 ^ 32 - 1 /\
  DecodeZigZag64 3 = (if Z.even 3 then 3 / 2 else - (3 / 2) - 1).
Proof.
  split.
  - apply (proj1 DecodeZigZag_inverse (2 ^ 32 - 1)). lia.
  - apply (proj1 (proj2 DecodeZigZag_inverse) 3). lia.
Defined.

(** ** Length-delimited bytes *)

Lemma DecodeRawBytes_of_encoding alloc b cb rest :
  inBounds cb -> goSlice (buf cb) ->
  remaining cb = EncodeRawBytes b ++ rest ->
  DecodeRawBytes alloc cb = ((b, None), setIndex cb (index cb + len (EncodeRawBytes b))).
Proof.
  intros Hin Hgo Hrem. unfold EncodeRawBytes in *. rewrite <- app_assoc in Hrem.
  assert (Hlb : 0 <= len b <= len (buf cb)).
  { unfold inBounds, remaining, sliceFrom, len in *.
    apply (f_equal (@length byte)) in Hrem.
    rewrite length_skipn, !length_app in Hrem. lia. }
  assert (Hn : 0 <= len b < 2 ^ 64) by (unfold goSlice, MaxInt in Hgo; lia).
  pose proof (DecodeVarint_of_encoding (len b) cb (b ++ rest) Hn (proj1 Hin) Hrem) as Hdec.
  destruct (remaining_app cb _ _ Hin Hrem) as (Hle1 & Hrem1 & _ & _).
  set (cb1 := setIndex cb (index cb + len (EncodeVarint (len b)))) in *.
  assert (Hin1 : inBounds cb1).
  { unfold inBounds in *. cbn [cb1 buf index setIndex].
    unfold len at 1. lia. }
  destruct (remaining_app cb1 _ _ Hin1 Hrem1) as (Hle2 & _ & Hsl & _).
  pose proof (DecodeRawBytes_cases alloc cb (len b) None cb1 Hin Hgo Hdec)
    as (_ & _ & Hok).
  rewrite Hok.
  - cbn [cb1 buf index setIndex] in *. rewrite Hsl. f_equal.
    unfold cb1, setIndex. cbn [buf]. f_equal.
    unfold len. rewrite length_app. lia.
  - unfold goSlice, MaxInt in Hgo. lia.
  - exact Hle2.
Qed.

(** X8. [DecodeRawBytes] inverts the length-delimited encoding, empty
    payloads included: on a buffer whose remaining bytes begin with the
    varint length of [b] followed by [b] it returns [b], in both
    allocation modes, and moves past the payload. *)
Theorem DecodeRawBytes_roundtrip alloc b cb rest :
  inBounds cb -> goSlice (buf cb) ->
  remaining cb = EncodeRawBytes b ++ rest ->
  DecodeRawBytes alloc cb = ((b, None), setIndex cb (index cb + len (EncodeRawBytes b))).
Proof. apply DecodeRawBytes_of_encoding. Qed.

Lemma DecodeRawBytes_roundtrip_witness :
  DecodeRawBytes false (NewBuffer [x00; x2a])
    = (([], None), setIndex (NewBuffer [x00; x2a]) (0 + len (EncodeRawBytes []))) /\
  DecodeRawBytes true (mkBuffer [x0a; x03; x61; x62; x63; x10] 1)
    = (([x61; x62; x63], None),
       setIndex (mkBuffer [x0a; x03; x61; x62; x63; x10] 1)
                (1 + len (EncodeRawBytes [x61; x62; x63]))).
Proof.
  split.
  - apply (DecodeRawBytes_roundtrip false [] (NewBuffer [x00; x2a]) [x2a]).
    + unfold inBounds. vm_compute. split; discriminate.
    + vm_compute. discriminate.
    + reflexivity.
  - apply (DecodeRawBytes_roundtrip true [x61; x62; x63]
             (mkBuffer [x0a; x03; x61; x62; x63; x10] 1) [x10]).
    + unfold inBounds. vm_compute. split; discriminate.
    + vm_compute. discriminate.
    + reflexivity.
Defined.

(** ** readValueFromBuffer *)

Lemma readValueFromBuffer_cases wireType buffer value :
  let '((value', err), buffer') := readValueFromBuffer wireType buffer value in
  WireType value' = wireType /\
  (err <> None -> Number value' = Number value /\ Bytes value' = Bytes value) /\
  (wireType <> WireBytes -> Bytes value' = Bytes value) /\
  (wireType = WireBytes -> Number value' = Number value) /\
  (wireType = WireStartGroup \/ wireType = WireEndGroup ->
   err = Some (ErrGroupWireType wireType) /\ buffer' = buffer) /\
  (wireType < 0 \/ 5 < wireType ->
   err = Some (ErrUnknownWireType wireType) /\ buffer' = buffer).
Proof.
  unfold readValueFromBuffer, WireVarint, WireFixed32, WireFixed64, WireBytes,
    WireStartGroup, WireEndGroup.
  destruct (Z.eqb_spec wireType 0) as [E0|N0].
  { destruct (DecodeVarint buffer) as [[x [e|]] b']; cbn;
      repeat split; intros; try lia; try congruence. }
  destruct (Z.eqb_spec wireType 5) as [E5|N5].
  { destruct (DecodeFixed32 buffer) as [[x [e|]] b']; cbn;
      repeat split; intros; try lia; try congruence. }
  destruct (Z.eqb_spec wireType 1) as [E1|N1].
  { destruct (DecodeFixed64 buffer) as [[x [e|]] b']; cbn;
      repeat split; intros; try lia; try congruence. }
  destruct (Z.eqb_spec wireType 2) as [E2|N2].
  { destruct (DecodeRawBytes false buffer) as [[x [e|]] b']; cbn;
      repeat split; intros; try lia; try congruence. }
  destruct (Z.eqb_spec wireType 3) as [E3|N3]; [|destruct (Z.eqb_spec wireType 4) as [E4|N4]]; cbn;
    repeat split; intros; try lia; try congruence.
Qed.

(** X9. [readValueFromBuffer] always writes the wire type into the record,
    also when it fails; it writes the numeric payload only after a varint
    or fixed-width value was decoded and the byte payload only after a
    length-delimited one was, and leaves the other payload as an earlier
    field set it. Group wire types and wire types outside 0..5 fail
    without moving the buffer. *)
Theorem readValueFromBuffer_writes wireType buffer value :
  let '((value', err), buffer') := readValueFromBuffer wireType buffer value in
  WireType value' = wireType /\
  (err <> None -> Number value' = Number value /\ Bytes value' = Bytes value) /\
  (wireType <> WireBytes -> Bytes value' = Bytes value) /\
  (wireType = WireBytes -> Number value' = Number value) /\
  (wireType = WireStartGroup \/ wireType = WireEndGroup ->
   err = Some (ErrGroupWireType wireType) /\ buffer' = buffer) /\
  (wireType < 0 \/ 5 < wireType ->
   err = Some (ErrUnknownWireType wireType) /\ buffer' = buffer).
Proof. apply readValueFromBuffer_cases. Qed.

Lemma EncodeVarint_nonempty n : 1 <= len (EncodeVarint n).
Proof.
  unfold EncodeVarint, len. cbn [varint_bytes].
  destruct (n <? 128); cbn [length]; lia.
Qed.

Lemma readValueFromBuffer_payload v value buffer rest :
  payloadInRange v -> inBounds buffer -> goSlice (buf buffer) ->
  remaining buffer = EncodePayload v ++ rest ->
  readValueFromBuffer (wireTypeOf v) buffer value =
    ((setPayload value v, None),
     setIndex buffer (index buffer + len (EncodePayload v))) /\
  1 <= len (EncodePayload v).
Proof.
  intros Hr Hin Hgo Hrem. unfold readValueFromBuffer.
  destruct v as [n|x|x|b]; cbn [wireTypeOf EncodePayload payloadInRange setPayload] in *.
  - change (WireVarint =? WireVarint) with true. cbv iota.
    rewrite (DecodeVarint_of_encoding n buffer rest Hr (proj1 Hin) Hrem).
    split; [reflexivity | apply EncodeVarint_nonempty].
  - change (WireFixed32 =? WireVarint) with false.
    change (WireFixed32 =? WireFixed32) with true. cbv iota.
    rewrite (DecodeFixed32_EncodeFixed32 x buffer rest Hr Hin Hgo Hrem).
    split; [reflexivity | cbn; lia].
  - change (WireFixed64 =? WireVarint) with false.
    change (WireFixed64 =? WireFixed32) with false.
    change (WireFixed64 =? WireFixed64) with true. cbv iota.
    rewrite (DecodeFixed64_EncodeFixed64 x buffer rest Hr Hin Hgo Hrem).
    split; [reflexivity | cbn; lia].
  - change (WireBytes =? WireVarint) with false.
    change (WireBytes =? WireFixed32) with false.
    change (WireBytes =? WireFixed64) with false.
    change (WireBytes =? WireBytes) with true. cbv iota.
    rewrite (DecodeRawBytes_of_encoding false b buffer rest Hin Hgo Hrem).
    split; [reflexivity|]. unfold EncodeRawBytes, len. rewrite length_app.
    pose proof (EncodeVarint_nonempty (len b)). unfold len in *. lia.
Qed.

(** ** MessageEach and PackedRepeatedEach on encoded input *)

Lemma EOF_iff_no_remaining buffer :
  inBounds buffer -> (EOF buffer = true <-> remaining buffer = []).
Proof.
  unfold EOF, inBounds, remaining, sliceFrom, len. intros Hin. split.
  - intros H'. apply Z.eqb_eq in H'. apply skipn_all2. lia.
  - intros H'. apply (f_equal (@length byte)) in H'. rewrite length_skipn in H'.
    cbn in H'. apply Z.eqb_eq. lia.
Qed.

Lemma not_EOF_before_bytes buffer pre rest :
  inBounds buffer -> remaining buffer = pre ++ rest -> 1 <= len pre ->
  EOF buffer = false.
Proof.
  intros Hin Hrem Hlen. destruct (EOF buffer) eqn:He; [|reflexivity].
  apply EOF_iff_no_remaining in He; [|exact Hin]. rewrite He in Hrem.
  destruct pre; [cbn in Hlen; lia | discriminate].
Qed.

Lemma inBounds_advance buffer pre rest :
  inBounds buffer -> remaining buffer = pre ++ rest ->
  inBounds (setIndex buffer (index buffer + len pre)) /\
  remaining (setIndex buffer (index buffer + len pre)) = rest.
Proof.
  intros Hin Hrem. destruct (remaining_app buffer pre rest Hin Hrem) as (Hle & Hr & _).
  split; [|exact Hr]. unfold inBounds in *. cbn [buf index setIndex].
  unfold len at 1. lia.
Qed.

Section Feeding.

Variable St : Type.

Lemma MessageEach_loop_feeds (fn : MessageEachFn St) :
  forall fields fuel buffer value st,
  Forall fieldInRange fields ->
  inBounds buffer -> goSlice (buf buffer) ->
  remaining buffer = EncodeMessage fields ->
  (length fields <= fuel)%nat ->
  exists buffer',
    MessageEach_loop fuel fn buffer value st
    = Some (fst (feedFields fn st (decodedFields value fields)), buffer',
            snd (feedFields fn st (decodedFields value fields))) /\
    buf buffer' = buf buffer.
Proof.
  induction fields as [|[fieldNum v] fields IH];
    intros fuel buffer value st Hall Hin Hgo Hrem Hfuel.
  - apply (EOF_iff_no_remaining buffer Hin) in Hrem.
    exists buffer. split; [|reflexivity].
    destruct fuel; cbn [MessageEach_loop]; rewrite Hrem; reflexivity.
  - inversion Hall as [|f fs [Hnum Hpay] Hall']; subst. cbn [fst snd] in Hnum, Hpay.
    cbn [EncodeMessage map concat] in Hrem. fold (EncodeMessage fields) in Hrem.
    unfold EncodeField in Hrem. cbn [fst snd] in Hrem.
    destruct fuel as [|fuel]; [cbn in Hfuel; lia|].
    cbn [MessageEach_loop].
    rewrite (not_EOF_before_bytes buffer _ _ Hin Hrem)
      by (unfold len; rewrite length_app;
          pose proof (EncodeVarint_nonempty
                        (Z.lor (Z.shiftl fieldNum 3) (wireTypeOf v)));
          unfold EncodeTagAndWireType, len in *; lia).
    cbn [negb]. rewrite <- app_assoc in Hrem.
    rewrite (DecodeTagAndWireType_Encode_eq fieldNum (wireTypeOf v) buffer
               (EncodePayload v ++ EncodeMessage fields));
      [ | exact Hnum
        | destruct v; unfold wireTypeOf, WireVarint, WireFixed32, WireFixed64, WireBytes; lia
        | apply Hin | exact Hrem].
    cbn [isEOF].
    destruct (inBounds_advance buffer _ _ Hin Hrem) as [Hin1 Hrem1].
    set (b1 := setIndex buffer
                 (index buffer + len (EncodeTagAndWireType fieldNum (wireTypeOf v)))) in *.
    destruct (readValueFromBuffer_payload v value b1 (EncodeMessage fields)
                Hpay Hin1 Hgo Hrem1) as [Hread _].
    rewrite Hread.
    destruct (inBounds_advance b1 _ _ Hin1 Hrem1) as [Hin2 Hrem2].
    set (b2 := setIndex b1 (index b1 + len (EncodePayload v))) in *.
    cbn [decodedFields feedFields].
    destruct (fn st fieldNum (setPayload value v)) as [[shouldContinue err] st1].
    destruct (negb (isNil err) || negb shouldContinue).
    + exists b2. split; reflexivity.
    + destruct (IH fuel b2 (setPayload value v) st1 Hall' Hin2 Hgo Hrem2)
        as (b3 & Hrun & Hb3); [cbn in Hfuel; lia|].
      exists b3. split; [exact Hrun | exact Hb3].
Qed.

Lemma PackedRepeatedEach_loop_feeds (fn : PackedRepeatedEachFn St) wireType :
  forall vs fuel buffer value st,
  Forall (fun v => payloadInRange v /\ wireTypeOf v = wireType) vs ->
  inBounds buffer -> goSlice (buf buffer) ->
  remaining buffer = EncodePacked vs ->
  (length vs <= fuel)%nat ->
  exists buffer',
    PackedRepeatedEach_loop fuel wireType fn buffer value st
    = Some (None, buffer', feedValues fn st (decodedValues value vs)) /\
    buf buffer' = buf buffer.
Proof.
  induction vs as [|v vs IH]; intros fuel buffer value st Hall Hin Hgo Hrem Hfuel.
  - apply (EOF_iff_no_remaining buffer Hin) in Hrem.
    exists buffer. split; [|reflexivity].
    destruct fuel; cbn [PackedRepeatedEach_loop]; rewrite Hrem; reflexivity.
  - inversion Hall as [|f fs [Hpay Hwt] Hall']; subst.
    cbn [EncodePacked map concat] in Hrem. fold (EncodePacked vs) in Hrem.
    destruct fuel as [|fuel]; [cbn in Hfuel; lia|].
    cbn [PackedRepeatedEach_loop].
    destruct (readValueFromBuffer_payload v value buffer (EncodePacked vs)
                Hpay Hin Hgo Hrem) as [Hread Hlen].
    rewrite (not_EOF_before_bytes buffer _ _ Hin Hrem Hlen). cbn [negb].
    rewrite Hread.
    destruct (inBounds_advance buffer _ _ Hin Hrem) as [Hin2 Hrem2].
    set (b2 := setIndex buffer (index buffer + len (EncodePayload v))) in *.
    cbn [decodedValues feedValues].
    destruct (fn st (setPayload value v)) as [[shouldContinue err] st1].
    destruct (negb (isNil err) || negb shouldContinue).
    + exists b2. split; reflexivity.
    + destruct (IH fuel b2 (setPayload value v) st1 Hall' Hin2 Hgo Hrem2)
        as (b3 & Hrun & Hb3); [cbn in Hfuel; lia|].
      exists b3. split; [exact Hrun | exact Hb3].
Qed.

End Feeding.

Lemma payloadOf_setPayload value v : payloadOf (setPayload value v) = v.
Proof. destruct v; reflexivity. Qed.

Lemma decodedFields_payloads fields : forall value,
  map (fun a => (fst a, payloadOf (snd a))) (decodedFields value fields) = fields.
Proof.
  induction fields as [|[fieldNum v] fields IH]; intros value; cbn [decodedFields map];
    [reflexivity|].
  cbn [fst snd]. rewrite payloadOf_setPayload, IH. reflexivity.
Qed.

Lemma decodedValues_payloads vs : forall value,
  map payloadOf (decodedValues value vs) = vs.
Proof.
  induction vs as [|v vs IH]; intros value; cbn [decodedValues map]; [reflexivity|].
  rewrite payloadOf_setPayload, IH. reflexivity.
Qed.

(** X10. On a buffer whose remaining bytes are the encoding of a list of
    fields (field numbers from 0 to the largest [int32]; varint, fixed and
    length-delimited payloads), [MessageEach] hands the callback the
    fields in order, each with its field number, wire type and payload,
    until the callback reports an error or "do not continue"; it returns
    the error the callback reported last, or [nil] at the end of the
    message. One unit of fuel per field is enough. *)
Theorem MessageEach_decodes_encoded_message
  (St : Type) (fn : MessageEachFn St) (st : St)
  (fuel : nat) (buffer : Buffer) (fields : list (Z * Payload)) :
  Forall fieldInRange fields ->
  inBounds buffer -> goSlice (buf buffer) ->
  remaining buffer = EncodeMessage fields ->
  (length fields <= fuel)%nat ->
  let args := decodedFields zeroValue fields in
  map (fun a => (fst a, payloadOf (snd a))) args = fields /\
  exists buffer',
    MessageEach fuel buffer fn st
    = Some (fst (feedFields fn st args), buffer', snd (feedFields fn st args)) /\
    buf buffer' = buf buffer.
Proof.
  intros Hall Hin Hgo Hrem Hfuel. cbv zeta. split.
  - apply decodedFields_payloads.
  - apply MessageEach_loop_feeds; assumption.
Qed.

Lemma MessageEach_decodes_encoded_message_witness :
  let fields := [(1, PVarint 150); (2, PBytes [x61; x62]); (3, PFixed32 7);
                 (4, PFixed64 (2 ^ 63)); (0, PVarint 0)] in
  let buffer := NewBuffer (EncodeMessage fields) in
  let args := decodedFields zeroValue fields in
  map (fun a => (fst a, payloadOf (snd a))) args = fields /\
  exists buffer',
    MessageEach 5 buffer callbacks.recordFields []
    = Some (fst (feedFields callbacks.recordFields [] args), buffer',
            snd (feedFields callbacks.recordFields [] args)) /\
    buf buffer' = buf buffer.
Proof.
  cbv zeta.
  apply (MessageEach_decodes_encoded_message _ callbacks.recordFields [] 5
           (NewBuffer (EncodeMessage
                         [(1, PVarint 150); (2, PBytes [x61; x62]); (3, PFixed32 7);
                          (4, PFixed64 (2 ^ 63)); (0, PVarint 0)]))).
  - repeat constructor; cbn; unfold MaxInt32; lia.
  - unfold inBounds. vm_compute. split; discriminate.
  - vm_compute. discriminate.
  - reflexivity.
  - cbn. lia.
Defined.

Example MessageEach_stale_payload :
  MessageEach 2 (NewBuffer (EncodeMessage [(1, PVarint 150); (2, PBytes [x61])]))
    callbacks.recordFields []
  = Some (None, mkBuffer [x08; x96; x01; x12; x01; x61] 6,
          [(1, mkValue WireVarint 150 []); (2, mkValue WireBytes 150 [x61])]).
Proof. reflexivity. Qed.

(** X11. On a buffer whose remaining bytes are the back-to-back encodings
    of elements of the wire type the field type maps to,
    [PackedRepeatedEach] hands the callback the elements in order until it
    reports an error or "do not continue", and returns [nil]. One unit of
    fuel per element is enough. *)
Theorem PackedRepeatedEach_decodes_packed_elements
  (St : Type) (fn : PackedRepeatedEachFn St) (st : St)
  (fuel : nat) (buffer : Buffer) (fieldType : FieldType) (vs : list Payload) :
  Forall (fun v => payloadInRange v /\ packedWireType fieldType = Some (wireTypeOf v)) vs ->
  packedWireType fieldType <> None ->
  inBounds buffer -> goSlice (buf buffer) ->
  remaining buffer = EncodePacked vs ->
  (length vs <= fuel)%nat ->
  let args := decodedValues zeroValue vs in
  map payloadOf args = vs /\
  exists buffer',
    PackedRepeatedEach fuel buffer fieldType fn st
    = Some (None, buffer', feedValues fn st args) /\
    buf buffer' = buf buffer.
Proof.
  intros Hall Hmapped Hin Hgo Hrem Hfuel. cbv zeta. split.
  - apply decodedValues_payloads.
  - unfold PackedRepeatedEach.
    destruct (packedWireType fieldType) as [wireType|] eqn:Hwt; [|congruence].
    apply PackedRepeatedEach_loop_feeds; try assumption.
    eapply Forall_impl; [|exact Hall]. cbn. intros v [Hr Hw].
    split; [exact Hr | congruence].
Qed.

Lemma PackedRepeatedEach_decodes_packed_elements_witness :
  let vs := [PVarint 1; PVarint 2; PVarint 300] in
  let buffer := NewBuffer (EncodePacked vs) in
  let args := decodedValues zeroValue vs in
  map payloadOf args = vs /\
  exists buffer',
    PackedRepeatedEach 3 buffer FieldType_SINT32 callbacks.failSecond 0%nat
    = Some (None, buffer', feedValues callbacks.failSecond 0%nat args) /\
    buf buffer' = buf buffer.
Proof.
  cbv zeta.
  apply (PackedRepeatedEach_decodes_packed_elements _ callbacks.failSecond 0%nat 3
           (NewBuffer (EncodePacked [PVarint 1; PVarint 2; PVarint 300]))
           FieldType_SINT32).
  - repeat constructor; cbn; lia.
  - discriminate.
  - unfold inBounds. vm_compute. split; discriminate.
  - vm_compute. discriminate.
  - reflexivity.
  - cbn. lia.
Defined.

(** ** MessageEach and what its callback reports *)

Section FieldCallbackLog.

Variable St : Type.
Variable fn : MessageEachFn St.

Lemma MessageEach_loop_logged fuel : forall buffer value st log,
  option_map (fun '(err, buffer', (st', _)) => (err, buffer', st'))
    (MessageEach_loop fuel (loggedFields fn) buffer value (st, log))
  = MessageEach_loop fuel fn buffer value st.
Proof.
  induction fuel as [|fuel IH]; intros buffer value st log;
    cbn [MessageEach_loop]; destruct (negb (EOF buffer)); try reflexivity.
  destruct (DecodeTagAndWireType buffer) as [[[fieldNum wireType] err] b1].
  destruct (isEOF err); [reflexivity|].
  destruct (readValueFromBuffer wireType b1 value) as [[value' [e|]] b2];
    [reflexivity|].
  unfold loggedFields at 1. cbn [fst snd].
  destruct (fn st fieldNum value') as [[shouldContinue err'] st1].
  destruct (negb (isNil err') || negb shouldContinue); [reflexivity|].
  apply IH.
Qed.

Lemma MessageEach_loop_stops fuel :
  forall buffer value st log err buffer' st' log',
  (forall r, In r log -> stops r = false) ->
  MessageEach_loop fuel (loggedFields fn) buffer value (st, log)
    = Some (err, buffer', (st', log')) ->
  forall i r, nth_error log' i = Some r -> stops r = true ->
    S i = length log' /\ err = snd r.
Proof.
  induction fuel as [|fuel IH]; intros buffer value st log err buffer' st' log' Hlog;
    cbn [MessageEach_loop]; destruct (negb (EOF buffer));
    try discriminate.
  - intros Hrun i r Hi Hr. injection Hrun as <- <- <- <-.
    apply nth_error_In, Hlog in Hi. congruence.
  - destruct (DecodeTagAndWireType buffer) as [[[fieldNum wireType] err0] b1].
    destruct (isEOF err0).
    { intros Hrun i r Hi Hr. injection Hrun as <- <- <- <-.
      apply nth_error_In, Hlog in Hi. congruence. }
    destruct (readValueFromBuffer wireType b1 value) as [[value' [e|]] b2].
    { intros Hrun i r Hi Hr. injection Hrun as <- <- <- <-.
      apply nth_error_In, Hlog in Hi. congruence. }
    unfold loggedFields at 1. cbn [fst snd].
    destruct (fn st fieldNum value') as [[shouldContinue err'] st1].
    destruct (negb (isNil err') || negb shouldContinue) eqn:Hstop.
    + intros Hrun i r Hi Hr. injection Hrun as <- <- <- <-.
      rewrite length_app. cbn [length].
      destruct (Nat.lt_ge_cases i (length log)) as [Hlt|Hge].
      * rewrite nth_error_app1 in Hi by exact Hlt.
        apply nth_error_In, Hlog in Hi. congruence.
      * assert (Hlen : (i < length (log ++ [(shouldContinue, err')]))%nat)
          by (apply nth_error_Some; congruence).
        rewrite length_app in Hlen. cbn [length] in Hlen.
        assert (i = length log) by lia. subst i.
        rewrite nth_error_app2, Nat.sub_diag in Hi by lia.
        injection Hi as <-. split; [lia | reflexivity].
    + apply IH. intros r Hin. apply in_app_or in Hin as [Hin|[<-|[]]].
      * apply Hlog, Hin.
      * exact Hstop.
  - intros Hrun i r Hi Hr. injection Hrun as <- <- <- <-.
    apply nth_error_In, Hlog in Hi. congruence.
Qed.

End FieldCallbackLog.

(** X12. On every buffer within bounds [MessageEach] returns (given fuel
    for one field per remaining byte), and whenever an invocation of the
    callback reports an error or "do not continue", that invocation is the
    last one and [MessageEach] returns what it reported: the callback's
    error unchanged, or [nil] for a plain "do not continue". *)
Theorem MessageEach_returns_callback_error
  (St : Type) (fn : MessageEachFn St) (st : St) (fuel : nat) (buffer : Buffer) :
  inBounds buffer -> goSlice (buf buffer) ->
  len (buf buffer) - index buffer <= Z.of_nat fuel ->
  exists err buffer' st' log,
    MessageEach fuel buffer fn st = Some (err, buffer', st') /\
    MessageEach fuel buffer (loggedFields fn) (st, []) = Some (err, buffer', (st', log)) /\
    forall i r, nth_error log i = Some r -> stops r = true ->
      S i = length log /\ err = snd r.
Proof.
  intros Hin Hgo Hfuel. unfold MessageEach.
  destruct (MessageEach_loop_total _ (loggedFields fn) fuel buffer zeroValue (st, [])
              Hin Hgo Hfuel)
    as (err & buffer' & [st' log] & Hrun & _).
  exists err, buffer', st', log. split; [|split].
  - rewrite <- (MessageEach_loop_logged St fn fuel buffer zeroValue st []).
    rewrite Hrun. reflexivity.
  - exact Hrun.
  - eapply MessageEach_loop_stops; [|exact Hrun]. intros r [].
Qed.

Lemma MessageEach_returns_callback_error_witness :
  let buffer := NewBuffer (EncodeMessage [(1, PVarint 1); (2, PVarint 2); (3, PVarint 3)]) in
  let fn : MessageEachFn nat := fun st _ value => callbacks.failSecond st value in
  exists err buffer' st' log,
    MessageEach 6 buffer fn 0%nat = Some (err, buffer', st') /\
    MessageEach 6 buffer (loggedFields fn) (0%nat, []) = Some (err, buffer', (st', log)) /\
    forall i r, nth_error log i = Some r -> stops r = true ->
      S i = length log /\ err = snd r.
Proof.
  cbv zeta.
  apply (MessageEach_returns_callback_error nat
           (fun st _ value => callbacks.failSecond st value) 0%nat 6
           (NewBuffer (EncodeMessage [(1, PVarint 1); (2, PVarint 2); (3, PVarint 3)]))).
  - unfold inBounds. vm_compute. split; discriminate.
  - vm_compute. discriminate.
  - vm_compute. discriminate.
Defined.

Example MessageEach_failSecond_run :
  MessageEach 6 (NewBuffer (EncodeMessage [(1, PVarint 1); (2, PVarint 2); (3, PVarint 3)]))
    (fun st _ value => callbacks.failSecond st value) 0%nat
  = Some (Some callbacks.secondError, mkBuffer [x08; x01; x10; x02; x18; x03] 4, 2%nat).
Proof. reflexivity. Qed.

(** ** MessageEach on what it cannot decode *)

(** X13. In any round of [MessageEach] that starts before the end of the
    input: when the tag cannot be read as a varint (truncated or longer
    than ten bytes), the loop returns that error wrapped as a failure to
    decode a varint value and to read a value, without invoking the
    callback and without moving the buffer. *)
Theorem MessageEach_unreadable_tag
  (St : Type) (fn : MessageEachFn St) (st : St) (fuel : nat)
  (buffer : Buffer) (value : Value) (x : Z) (e : error) :
  EOF buffer = false ->
  DecodeVarint buffer = ((x, Some e), buffer) ->
  MessageEach_loop (S fuel) fn buffer value st
  = Some (Some (ErrMessageEachRead (ErrDecodingVarint e)), buffer, st) /\
  (e = io_ErrUnexpectedEOF \/ e = ErrOverflow).
Proof.
  intros Heof Hdec. split.
  - cbn [MessageEach_loop]. rewrite Heof. cbn [negb].
    unfold DecodeTagAndWireType. rewrite Hdec.
    pose proof (DecodeVarint_loop_error_kind _ _ _ _ _ _ _ _ _ Hdec) as Hk.
    replace (isEOF (Some e)) with false by (destruct Hk; subst; reflexivity).
    unfold readValueFromBuffer. change (0 =? WireVarint) with true. cbv iota.
    rewrite Hdec. reflexivity.
  - eapply DecodeVarint_loop_error_kind, Hdec.
Qed.

Lemma MessageEach_unreadable_tag_witness :
  MessageEach_loop 1 callbacks.recordFields (mkBuffer [x08; x01; x80] 2) zeroValue []
  = Some (Some (ErrMessageEachRead (ErrDecodingVarint io_ErrUnexpectedEOF)),
          mkBuffer [x08; x01; x80] 2, []) /\
  (io_ErrUnexpectedEOF = io_ErrUnexpectedEOF \/ io_ErrUnexpectedEOF = ErrOverflow).
Proof.
  apply (MessageEach_unreadable_tag _ callbacks.recordFields [] 0
           (mkBuffer [x08; x01; x80] 2) zeroValue 0 io_ErrUnexpectedEOF);
    reflexivity.
Defined.

(** X14. In any round of [MessageEach] that starts before the end of the
    input: when the tag is read and carries a group wire type (3 or 4) or
    a wire type above 5, the loop returns the group or unknown-wire-type
    error wrapped as a failure to read a value, without invoking the
    callback; the buffer stays just past the tag. *)
Theorem MessageEach_unsupported_wire_type
  (St : Type) (fn : MessageEachFn St) (st : St) (fuel : nat)
  (buffer : Buffer) (value : Value) (fieldNum wireType : Z) (buffer1 : Buffer) :
  EOF buffer = false ->
  DecodeTagAndWireType buffer = ((fieldNum, wireType, None), buffer1) ->
  (wireType = WireStartGroup \/ wireType = WireEndGroup ->
   MessageEach_loop (S fuel) fn buffer value st
   = Some (Some (ErrMessageEachRead (ErrGroupWireType wireType)), buffer1, st)) /\
  (5 < wireType ->
   MessageEach_loop (S fuel) fn buffer value st
   = Some (Some (ErrMessageEachRead (ErrUnknownWireType wireType)), buffer1, st)).
Proof.
  intros Heof Htag.
  pose proof (readValueFromBuffer_cases wireType buffer1 value) as Hw.
  split; intros Hwt; cbn [MessageEach_loop]; rewrite Heof; cbn [negb];
    rewrite Htag; cbn [isEOF];
    destruct (readValueFromBuffer wireType buffer1 value) as [[value' err] b2];
    destruct Hw as (_ & _ & _ & _ & Hgroup & Hunknown).
  - destruct (Hgroup Hwt) as [-> ->]. reflexivity.
  - destruct (Hunknown (or_intror Hwt)) as [-> ->]. reflexivity.
Qed.

Lemma MessageEach_unsupported_wire_type_witness :
  MessageEach_loop 1 callbacks.recordFields (NewBuffer [x0b; x0c]) zeroValue []
  = Some (Some (ErrMessageEachRead (ErrGroupWireType WireStartGroup)),
          mkBuffer [x0b; x0c] 1, []) /\
  MessageEach_loop 1 callbacks.recordFields (NewBuffer [x0f; x01]) zeroValue []
  = Some (Some (ErrMessageEachRead (ErrUnknownWireType 7)), mkBuffer [x0f; x01] 1, []).
Proof.
  split.
  - apply (proj1 (MessageEach_unsupported_wire_type _ callbacks.recordFields [] 0
                    (NewBuffer [x0b; x0c]) zeroValue 1 WireStartGroup
                    (mkBuffer [x0b; x0c] 1) eq_refl eq_refl)).
    left. reflexivity.
  - apply (proj2 (MessageEach_unsupported_wire_type _ callbacks.recordFields [] 0
                    (NewBuffer [x0f; x01]) zeroValue 1 7
                    (mkBuffer [x0f; x01] 1) eq_refl eq_refl)).
    lia.
Defined.

(** ** Groups *)

(** X15. When the fields from offset [p] run up to a matching EndGroup tag
    at [[d, g)], that tag is the only one that matches, [SkipGroup] lands
    at [g] and [ReadGroup] returns the bytes [[p, d)] and lands at [g], in
    both allocation modes (on a buffer at least ten bytes short of the
    largest slice, given fuel for one field per remaining byte). *)
Theorem SkipGroup_finds_matching_end bs p d g fuel :
  len bs + 10 <= MaxInt -> 0 <= p ->
  groupEnds bs p d g ->
  len bs - p + 2 < Z.of_nat fuel ->
  SkipGroup fuel (mkBuffer bs p) = Some (None, mkBuffer bs g) /\
  (forall alloc,
     ReadGroup fuel alloc (mkBuffer bs p) = Some ((slice bs p d, None), mkBuffer bs g)) /\
  (forall d' g', groupEnds bs p d' g' -> d' = d /\ g' = g).
Proof.
  intros Hsz Hp Hg Hfuel.
  pose proof (findGroupEnd_complete bs p d g fuel Hsz Hg Hp Hfuel) as Hrun.
  pose proof (groupEnds_bounds _ _ _ _ Hg Hp) as Hbd.
  split; [|split].
  - unfold SkipGroup, SkipGroup_with. rewrite Hrun. reflexivity.
  - intros alloc. unfold ReadGroup. rewrite Hrun. cbn [buf index setIndex].
    destruct alloc; cbn [negb]; [|reflexivity].
    rewrite copy_make_slice by lia.
    replace (p + (d - p)) with d by lia. reflexivity.
  - intros d' g' Hg'.
    pose proof (findGroupEnd_complete bs p d' g' fuel Hsz Hg' Hp Hfuel) as Hrun'.
    rewrite Hrun in Hrun'. injection Hrun' as -> ->. split; reflexivity.
Qed.

Lemma SkipGroup_finds_matching_end_witness :
  let bs := [x0b; x08; x96; x01; x0b; x15; x01; x02; x03; x04; x0c; x0c; x10] in
  SkipGroup 20 (mkBuffer bs 1) = Some (None, mkBuffer bs 12) /\
  (forall alloc,
     ReadGroup 20 alloc (mkBuffer bs 1) = Some ((slice bs 1 11, None), mkBuffer bs 12)) /\
  (forall d' g', groupEnds bs 1 d' g' -> d' = 11 /\ g' = 12).
Proof.
  cbv zeta.
  apply (SkipGroup_finds_matching_end
           [x0b; x08; x96; x01; x0b; x15; x01; x02; x03; x04; x0c; x0c; x10] 1 11 12 20).
  - vm_compute. discriminate.
  - lia.
  - eapply group_field with (p1 := 2) (p2 := 4) (wireType := WireVarint);
      [reflexivity | | ].
    { apply (ends_varint _ 2 3); [lia | vm_compute; reflexivity | | vm_compute; reflexivity].
      intros j Hj. assert (j = 2) by lia. subst j. vm_compute. discriminate. }
    eapply group_nested with (p1 := 5) (d1 := 10) (g1 := 11); [reflexivity | | ].
    { eapply group_field with (p1 := 6) (p2 := 10) (wireType := WireFixed32);
        [reflexivity | | ].
      - apply (ends_fixed32 _ 6). vm_compute. discriminate.
      - eapply group_end. reflexivity. }
    eapply group_end. reflexivity.
  - vm_compute. reflexivity.
Defined.



Section GroupScanErrors.

Variable SkipGroup : Buffer -> option (option error * Buffer).
Hypothesis SkipGroup_error_kind : forall cb e cb',
  SkipGroup cb = Some (Some e, cb') ->
  e = io_ErrUnexpectedEOF \/ e = ErrOverflow \/ e = ErrBadWireType \/
  exists v, e = ErrTagOutOfRange v.


End GroupScanErrors.




(** ** The iterators and the cursor *)

Section IteratorsFrame.

Variable St : Type.

Lemma MessageEach_loop_frame (fn : MessageEachFn St) fuel :
  forall buffer value st err buffer' st',
  inBounds buffer -> goSlice (buf buffer) ->
  MessageEach_loop fuel fn buffer value st = Some (err, buffer', st') ->
  buf buffer' = buf buffer /\ inBounds buffer' /\ index buffer <= index buffer'.
Proof.
  induction fuel as [|fuel IH]; intros buffer value st err buffer' st' Hin Hgo;
    cbn [MessageEach_loop]; destruct (negb (EOF buffer)); try discriminate;
    try (intros H'; injection H' as <- <- <-; repeat split; try apply Hin; lia).
  pose proof (DecodeTagAndWireType_frame buffer (proj1 Hin)) as Hfr.
  destruct (DecodeTagAndWireType buffer) as [[[fieldNum wireType] err0] b1].
  destruct Hfr as (Hb1 & Hle1 & Hin1 & _).
  assert (Hin1' : inBounds b1)
    by (unfold inBounds in *; rewrite Hb1; split; [lia | apply Hin1; lia]).
  destruct (isEOF err0).
  { intros H'. injection H' as <- <- <-. repeat split; try apply Hin1'; assumption. }
  pose proof (readValueFromBuffer_frame wireType b1 value Hin1'
                ltac:(rewrite Hb1; exact Hgo)) as Hfr.
  destruct (readValueFromBuffer wireType b1 value) as [[value' [e|]] b2];
    destruct Hfr as (Hb2 & Hin2 & Hidx).
  { intros H'. injection H' as <- <- <-.
    repeat split; try apply Hin2; [congruence | lia]. }
  destruct (fn st fieldNum value') as [[shouldContinue err'] st1].
  destruct (negb (isNil err') || negb shouldContinue).
  { intros H'. injection H' as <- <- <-.
    repeat split; try apply Hin2; [congruence | lia]. }
  intros Hrun. apply IH in Hrun as (Hb3 & Hin3 & Hidx3);
    [|exact Hin2|rewrite Hb2, Hb1; exact Hgo].
  repeat split; try apply Hin3; [congruence | lia].
Qed.

Lemma PackedRepeatedEach_loop_frame (fn : PackedRepeatedEachFn St) wireType fuel :
  forall buffer value st err buffer' st',
  inBounds buffer -> goSlice (buf buffer) ->
  PackedRepeatedEach_loop fuel wireType fn buffer value st = Some (err, buffer', st') ->
  buf buffer' = buf buffer /\ inBounds buffer' /\ index buffer <= index buffer'.
Proof.
  induction fuel as [|fuel IH]; intros buffer value st err buffer' st' Hin Hgo;
    cbn [PackedRepeatedEach_loop]; destruct (negb (EOF buffer)); try discriminate;
    try (intros H'; injection H' as <- <- <-; repeat split; try apply Hin; lia).
  pose proof (readValueFromBuffer_frame wireType buffer value Hin Hgo) as Hfr.
  destruct (readValueFromBuffer wireType buffer value) as [[value' [e|]] b2];
    destruct Hfr as (Hb2 & Hin2 & Hidx).
  { intros H'. injection H' as <- <- <-.
    repeat split; try apply Hin2; [congruence | lia]. }
  destruct (fn st value') as [[shouldContinue err'] st1].
  destruct (negb (isNil err') || negb shouldContinue).
  { intros H'. injection H' as <- <- <-.
    repeat split; try apply Hin2; [congruence | lia]. }
  intros Hrun. apply IH in Hrun as (Hb3 & Hin3 & Hidx3);
    [|exact Hin2|rewrite Hb2; exact Hgo].
  repeat split; try apply Hin3; [congruence | lia].
Qed.

End IteratorsFrame.

(** X17. Both iterators return on every buffer within bounds, given fuel
    for one round per remaining byte (each round that goes on consumes at
    least one byte); they leave the bytes alone, keep the position within
    bounds and never move it backward, whatever the callback does. *)
Theorem iterators_return_and_keep_cursor
  (St : Type) (fnM : MessageEachFn St) (fnP : PackedRepeatedEachFn St) (st : St)
  (fuel : nat) (buffer : Buffer) (fieldType : FieldType) :
  inBounds buffer -> goSlice (buf buffer) ->
  len (buf buffer) - index buffer <= Z.of_nat fuel ->
  (exists err buffer' st',
     MessageEach fuel buffer fnM st = Some (err, buffer', st') /\
     buf buffer' = buf buffer /\ inBounds buffer' /\ index buffer <= index buffer') /\
  (exists err buffer' st',
     PackedRepeatedEach fuel buffer fieldType fnP st = Some (err, buffer', st') /\
     buf buffer' = buf buffer /\ inBounds buffer' /\ index buffer <= index buffer').
Proof.
  intros Hin Hgo Hfuel. split.
  - unfold MessageEach.
    destruct (MessageEach_loop_total St fnM fuel buffer zeroValue st Hin Hgo Hfuel)
      as (err & b' & st' & Hrun & _).
    exists err, b', st'. split; [exact Hrun|].
    eapply MessageEach_loop_frame; eassumption.
  - unfold PackedRepeatedEach. destruct (packedWireType fieldType) as [wireType|].
    + destruct (PackedRepeatedEach_loop_total St fnP wireType fuel buffer zeroValue st
                  Hin Hgo Hfuel) as (err & b' & st' & Hrun & _).
      exists err, b', st'. split; [exact Hrun|].
      eapply PackedRepeatedEach_loop_frame; eassumption.
    + do 3 eexists. split; [reflexivity|].
      split; [reflexivity|]. split; [exact Hin | lia].
Qed.

Lemma iterators_return_and_keep_cursor_witness :
  let buffer := mkBuffer [x08; x01; x10; x02; x1b] 2 in
  (exists err buffer' st',
     MessageEach 3 buffer callbacks.recordFields [] = Some (err, buffer', st') /\
     buf buffer' = buf buffer /\ inBounds buffer' /\ index buffer <= index buffer') /\
  (exists err buffer' st',
     PackedRepeatedEach 3 buffer FieldType_BOOL
       (fun (st : list (Z * Value)) _ => ((true, None), st)) []
     = Some (err, buffer', st') /\
     buf buffer' = buf buffer /\ inBounds buffer' /\ index buffer <= index buffer').
Proof.
  cbv zeta.
  apply (iterators_return_and_keep_cursor _ callbacks.recordFields
           (fun (st : list (Z * Value)) _ => ((true, None), st)) [] 3
           (mkBuffer [x08; x01; x10; x02; x1b] 2) FieldType_BOOL).
  - unfold inBounds. vm_compute. split; discriminate.
  - vm_compute. discriminate.
  - vm_compute. discriminate.
Defined.

(** ** The tables of init *)

(** X18. The three tables filled by [init] name exactly the field types
    that [PackedRepeatedEach] maps to the varint, the 32-bit and the
    64-bit wire type, and no field type is in two of them. *)
Theorem init_tables_match_packed_wire_types (fieldType : FieldType) :
  (mapGet varintTypes fieldType = true <-> packedWireType fieldType = Some WireVarint) /\
  (mapGet fixed32Types fieldType = true <-> packedWireType fieldType = Some WireFixed32) /\
  (mapGet fixed64Types fieldType = true <-> packedWireType fieldType = Some WireFixed64) /\
  (mapGet varintTypes fieldType && mapGet fixed32Types fieldType = false) /\
  (mapGet varintTypes fieldType && mapGet fixed64Types fieldType = false) /\
  (mapGet fixed32Types fieldType && mapGet fixed64Types fieldType = false).
Proof.
  destruct fieldType; vm_compute;
    repeat split; intros; try reflexivity; try discriminate.
Qed.
